(** * OctoJS: the middleware composer of [packages/app/src/composer.ts]

    A shallow embedding of the event-dispatch engine: the error wrapper
    [BotError], the continuation plumbing ([flatten], [concat], [pass],
    [leaf], [run]) and the [Composer] combinators, followed by the
    properties of the engine that the specification states.

    Modelling conventions.
    - A JavaScript value that the engine can see thrown is a [value].
      Strings are sequences of 8-bit code units; numbers are the integral
      ones, which [Number::toString] prints as plain decimal digits.
    - An asynchronous function body that has a continuation [next] in scope
      is an [Async] tree: it returns, throws, performs an observable side
      effect ([Emit]) or awaits [next()] and goes on with the settled
      promise ([CallNext]).  Every promise is awaited where it is created,
      which is the sequential discipline of section 5 of the specification;
      bodies terminate.
    - A user callback without continuation (predicate, router, factory) is
      a [Task]: the side effects it performs, then how it settles.
    - A closure variable ([nextCalled]) is threaded explicitly through the
      activation that owns it ([call]).
    - The builder methods of [Composer] mutate [this.handler]; they are
      state passing here: each returns the updated receiver next to the
      child composer the source returns.  A child is wired into its parent
      with the middleware it was given at registration.
    - The context is a value that the middleware read.  Where a property
      depends on writes to the payload, the module [Mutable] has the
      payload as the state of the dispatch.
    - The object of handlers that [route] reads is its own properties and
      the ones it inherits, as a property lookup finds them. *)

From Stdlib Require Import Ascii.
From stdpp Require Import base option list strings pretty gmap.

Open Scope string_scope.

(** ** JavaScript values and settled promises *)

(** The values that middleware may throw.  [VNumber n] is the number whose
    value is the integer [n], of magnitude below 10^21, the numbers that
    [Number::toString] prints in plain decimal digits; [VError] is an
    [Error] whose [name] and [message] are strings. *)
Inductive value : Type :=
| VUndefined
| VNull
| VBoolean (b : bool)
| VNumber (n : Z)
| VBigInt (n : Z)
| VString (s : string)
| VSymbol (description : string)
| VFunction
| VObject
| VError (name message : string).  (* [instanceof Error] *)

Inductive settled (A : Type) : Type :=
| Fulfilled (a : A)
| Rejected (v : value).
Arguments Fulfilled {A} a.
Arguments Rejected {A} v.

(** [typeof error], for the values that are not [instanceof Error]. *)
Definition typeof (v : value) : string :=
  match v with
  | VUndefined => "undefined"
  | VNull => "object"
  | VBoolean _ => "boolean"
  | VNumber _ => "number"
  | VBigInt _ => "bigint"
  | VString _ => "string"
  | VSymbol _ => "symbol"
  | VFunction => "function"
  | VObject => "object"
  | VError _ _ => "object"
  end.

Definition symbol_to_string_error : value :=
  VError "TypeError" "Cannot convert a Symbol value to a string".

(** The abstract operation ToString, which a template literal applies to
    each substitution: it throws a TypeError on a symbol.  On a function
    or an object it is given for the inherited [toString]; the engine
    applies it to primitive values only. *)
Definition ToString (v : value) : settled string :=
  match v with
  | VUndefined => Fulfilled "undefined"
  | VNull => Fulfilled "null"
  | VBoolean b => Fulfilled (if b then "true" else "false")
  | VNumber n => Fulfilled (pretty n)
  | VBigInt n => Fulfilled (pretty n)
  | VString s => Fulfilled s
  | VSymbol _ => Rejected symbol_to_string_error
  | VFunction => Fulfilled "function () { [native code] }"
  | VObject => Fulfilled "[object Object]"
  | VError name message => Fulfilled (name +:+ ": " +:+ message)
  end.

(** ** Context (context.ts) *)

Record Context : Type := {
  eventName : string;
  event : gmap string value;
}.

(** ** BotError and its message (composer.ts, lines 36-66) *)

(** The explicit conversion [String(error)], which accepts symbols. *)
Definition String_of (v : value) : string :=
  match v with
  | VSymbol description => "Symbol(" +:+ description +:+ ")"
  | _ => match ToString v with Fulfilled s => s | Rejected _ => "" end
  end.

Definition generateBotErrorMessage (error : value) : settled string :=
  match error with
  | VError name message =>
      Fulfilled (name +:+ " in middleware: " +:+ message)
  | _ =>
      let type := typeof error in
      let msg := "Non-error value of type " +:+ type +:+ " thrown in middleware" in
      if bool_decide (type ∈ ["bigint"; "boolean"; "number"; "symbol"]) then
        match ToString error with
        | Fulfilled s => Fulfilled (msg +:+ ": " +:+ s)
        | Rejected e => Rejected e
        end
      else if bool_decide (type = "string") then
        Fulfilled (msg +:+ ": " +:+ String.substring 0 50 (String_of error))
      else
        Fulfilled (msg +:+ "!")
  end.

Record BotError : Type := {
  error : value;
  ctx : Context;
  message : string;
  name : string;
}.

(** [new BotError(error, ctx)]: the super call evaluates the message first,
    so a throw of [generateBotErrorMessage] is a throw of the constructor. *)
Definition BotError_new (error : value) (ctx : Context) : settled BotError :=
  match generateBotErrorMessage error with
  | Fulfilled msg =>
      Fulfilled {| error := error; ctx := ctx; message := msg; name := "BotError" |}
  | Rejected e => Rejected e
  end.

(** A [BotError] seen as a thrown value again (it extends [Error]). *)
Definition BotError_value (e : BotError) : value := VError (name e) (message e).

(** ** Asynchronous bodies *)

Definition label : Type := string.

(** The body of an activation, as seen from outside: [CallNext k] awaits
    the continuation in scope and goes on with [k] on the settled promise,
    so that a body may catch what its continuation throws. *)
Inductive Async (A : Type) : Type :=
| Ret (a : A)
| Throw (v : value)
| Emit (l : label) (k : Async A)
| CallNext (k : settled unit → Async A).
Arguments Ret {A} a.
Arguments Throw {A} v.
Arguments Emit {A} l k.
Arguments CallNext {A} k.

Fixpoint bind {A B : Type} (m : Async A) (f : A → Async B) : Async B :=
  match m with
  | Ret a => f a
  | Throw v => Throw v
  | Emit l k => Emit l (bind k f)
  | CallNext k => CallNext (λ o, bind (k o) f)
  end.

Declare Scope async_scope.
Delimit Scope async_scope with async.
Bind Scope async_scope with Async.
Notation "x <- m ;; k" := (bind m (λ x, k))
  (at level 20, m at level 99, k at level 200, only parsing) : async_scope.
Notation "' p <- m ;; k" := (bind m (λ x, match x with p => k end))
  (at level 20, p pattern, m at level 99, k at level 200, only parsing)
  : async_scope.
Notation "m ;; k" := (bind m (λ _, k))
  (at level 100, k at level 200, right associativity, only parsing)
  : async_scope.
Open Scope async_scope.

(** [try { await m } catch (v) { ... }]: the settled promise of [m]. *)
Fixpoint try_ {A : Type} (m : Async A) : Async (settled A) :=
  match m with
  | Ret a => Ret (Fulfilled a)
  | Throw v => Ret (Rejected v)
  | Emit l k => Emit l (try_ k)
  | CallNext k => CallNext (λ o, try_ (k o))
  end.

(** [await p] on an already settled promise. *)
Definition await {A : Type} (p : settled A) : Async A :=
  match p with
  | Fulfilled a => Ret a
  | Rejected v => Throw v
  end.

(** [await next()]. *)
Definition await_next : Async unit := CallNext await.

Fixpoint emits {A : Type} (ls : list label) (k : Async A) : Async A :=
  match ls with
  | [] => k
  | l :: ls => Emit l (emits ls k)
  end.

(** A callback that has no continuation in scope. *)
Definition Task (A : Type) : Type := list label * settled A.

Definition resolve {A : Type} (a : A) : Task A := ([], Fulfilled a).

Definition then_ {A B : Type} (t : Task A) (f : A → Task B) : Task B :=
  match t with
  | (ls, Fulfilled a) => let '(ls', r) := f a in ((ls ++ ls')%list, r)
  | (ls, Rejected v) => (ls, Rejected v)
  end.

(** [await t] inside an asynchronous body. *)
Definition await_task {A : Type} (t : Task A) : Async A :=
  emits t.1 (await t.2).

(** [call body next s]: the activation [body(ctx, next)] where [next] is a
    closure over a variable whose value is [s] when the activation starts.
    The closure is given as the function from the value of its variable to
    what one invocation does: its effects in the enclosing body, the
    promise it returns and the value it leaves in the variable.  The result
    carries the last value of the variable. *)
Fixpoint call {S A : Type} (body : Async A)
    (next : S → Async (settled unit * S)) (s : S) : Async (A * S) :=
  match body with
  | Ret a => Ret (a, s)
  | Throw v => Throw v
  | Emit l k => Emit l (call k next s)
  | CallNext k => '(o, s') <- next s ;; call (k o) next s'
  end.

(** ** Middleware (composer.ts, lines 21-34) *)

Definition MiddlewareFn : Type := Context → Async unit.

Record MiddlewareObj : Type := { middleware : unit → MiddlewareFn }.

Inductive Middleware : Type :=
| Fn (f : MiddlewareFn)
| Obj (o : MiddlewareObj).

Inductive MaybeArray (T : Type) : Type :=
| One (x : T)
| Many (xs : list T).
Arguments One {T} x.
Arguments Many {T} xs.

(** [Array.isArray(x) ? x : [x]] *)
Definition to_array {T : Type} (x : MaybeArray T) : list T :=
  match x with
  | One x => [x]
  | Many xs => xs
  end.

(** ** Continuation plumbing (composer.ts, lines 68-102) *)

Definition flatten (mw : Middleware) : MiddlewareFn :=
  match mw with
  | Fn f => f
  | Obj o => λ ctx, middleware o () ctx
  end.

Definition next_already_called : value :=
  VError "Error" "`next` already called before!".

(** The continuation that [concat] hands to [first], as a function of its
    variable [nextCalled]. *)
Definition concat_next (andThen : MiddlewareFn) (ctx : Context)
    (nextCalled : bool) : Async (settled unit * bool) :=
  if nextCalled then Ret (Rejected next_already_called, nextCalled)
  else r <- try_ (andThen ctx) ;; Ret (r, true).

Definition concat (first andThen : MiddlewareFn) : MiddlewareFn :=
  λ ctx,
    call (first ctx) (concat_next andThen ctx) false ;; Ret ().

Definition pass : MiddlewareFn := λ _ctx, await_next.

(** [leaf], run to completion: what a body does when the continuation in
    scope is the terminal one. *)
Fixpoint with_leaf {A : Type} (body : Async A) : Task A :=
  match body with
  | Ret a => ([], Fulfilled a)
  | Throw v => ([], Rejected v)
  | Emit l k => let '(ls, r) := with_leaf k in (l :: ls, r)
  | CallNext k => with_leaf (k (Fulfilled ()))
  end.

Definition run (middleware : MiddlewareFn) (ctx : Context) : Task unit :=
  with_leaf (middleware ctx).

(** ** Strings: [q.split('.')] *)

Fixpoint split (sep : ascii) (s : string) : list string :=
  match s with
  | EmptyString => [EmptyString]
  | String c s' =>
      if Ascii.eqb c sep then EmptyString :: split sep s'
      else match split sep s' with
           | [] => [String c EmptyString]
           | w :: ws => String c w :: ws
           end
  end.

Global Instance value_eq_dec : EqDecision value.
Proof. solve_decision. Defined.

(** ** Composer (composer.ts, lines 104-233) *)

(** An entry read from the [routeHandlers] object of [route]: a middleware,
    or a value that is defined and falsy. *)
Inductive RouteEntry : Type :=
| Falsy
| Handler (m : Middleware).

(** The [routeHandlers] object as [route] reads it: its own properties and
    the properties it inherits through its prototype chain, the nearest
    prototype first.  An inherited function that is no middleware is the
    [Handler] of what it does when it is called with [(ctx, next)]. *)
Record RouteHandlers : Type := {
  own : gmap string RouteEntry;
  inherited : gmap string RouteEntry;
}.

(** [routeHandlers[route]]: an own property hides an inherited one. *)
Definition get_property (o : RouteHandlers) (k : string) : option RouteEntry :=
  match own o !! k with
  | Some e => Some e
  | None => inherited o !! k
  end.

Module Composer.

Record t : Type := { handler : MiddlewareFn }.

(** [middleware() { return this.handler }] *)
Definition middleware (this : t) (_ : unit) : MiddlewareFn := handler this.

(** [Composer implements MiddlewareObj] *)
Definition obj (this : t) : MiddlewareObj :=
  Build_MiddlewareObj (middleware this).

Definition new (middleware : list Middleware) : t :=
  {| handler :=
       match flatten <$> middleware with
       | [] => pass
       | f :: fs => foldl concat f fs
       end |}.

(** [use] returns the updated receiver and the child composer. *)
Definition use (this : t) (mws : list Middleware) : t * t :=
  let composer := new mws in
  ({| handler := concat (handler this) (flatten (Obj (obj composer))) |},
   composer).

(** The function that [lazy] registers. *)
Definition lazy_fn
    (middlewareFactory : Context → Task (MaybeArray Middleware))
    : MiddlewareFn :=
  λ ctx,
    mw <- await_task (middlewareFactory ctx) ;;
    let arr := to_array mw in
    flatten (Obj (obj (new arr))) ctx.

Definition lazy (this : t)
    (middlewareFactory : Context → Task (MaybeArray Middleware)) : t * t :=
  use this [Fn (lazy_fn middlewareFactory)].

(** [fallback] is [None] when the argument is left out, undefined or null:
    the default value of the parameter and [?? []] both make the node pass
    through. *)
Definition route (this : t) (router : Context → Task (option string))
    (routeHandlers : RouteHandlers)
    (fallback : option Middleware) : t * t :=
  let fallback := default (Fn pass) fallback in
  lazy this (λ ctx,
    then_ (router ctx) (λ route,
      resolve
        match route with
        | None => One fallback
        | Some route =>
            match get_property routeHandlers route with
            | Some (Handler m) => One m
            | Some Falsy | None => One fallback
            end
        end)).

Definition branch (this : t) (predicate : Context → Task bool)
    (trueMiddleware falseMiddleware : MaybeArray Middleware) : t * t :=
  lazy this (λ ctx,
    then_ (predicate ctx) (λ b,
      resolve (if b then trueMiddleware else falseMiddleware))).

Definition filter (this : t) (predicate : Context → Task bool)
    (mws : list Middleware) : t * t :=
  let composer := new mws in
  let '(this, _) :=
    branch this predicate (One (Obj (obj composer))) (One (Fn pass)) in
  (this, composer).

Definition drop (this : t) (predicate : Context → Task bool)
    (mws : list Middleware) : t * t :=
  filter this (λ ctx, then_ (predicate ctx) (λ b, resolve (negb b))) mws.

(** The callback of [query.some] in [on]; [c.event.action] is [undefined]
    when the payload has no such field. *)
Definition matches (c : Context) (q : string) : bool :=
  let parts := split "."%char q in
  let ev := default "" (parts !! 0%nat) in
  let action := parts !! 1%nat in
  if negb (String.eqb ev (eventName c)) then false
  else
    match action with
    | None => true
    | Some action =>
        bool_decide (is_Some (event c !! "action"))
        && bool_decide (VString action = default VUndefined (event c !! "action"))
    end.

(** The predicate that [on] hands to [filter]. *)
Definition on_predicate (filter_ : MaybeArray string) : Context → Task bool :=
  λ c,
    let query := to_array filter_ in
    resolve (existsb (matches c) query).

Definition on (this : t) (filter_ : MaybeArray string)
    (mws : list Middleware) : t * t :=
  filter this (on_predicate filter_) mws.

(** [cont] of [errorBoundary], as a function of its variable
    [nextCalled]. *)
Definition cont (nextCalled : bool) : Async (settled unit * bool) :=
  Ret (Fulfilled (), true).

(** The function that [errorBoundary] registers.  The catch block resets
    [nextCalled], so the activation of the handler starts from [false]. *)
Definition errorBoundary_fn (errorHandler : BotError → Async unit)
    (bound : MiddlewareFn) : MiddlewareFn :=
  λ ctx,
    r <- try_ (call (bound ctx) cont false) ;;
    nextCalled <-
      match r with
      | Fulfilled (_, nextCalled) => Ret nextCalled
      | Rejected err =>
          botError <- await (BotError_new err ctx) ;;
          '(_, nextCalled) <- call (errorHandler botError) cont false ;;
          Ret nextCalled
      end ;;
    if (nextCalled : bool) then await_next else Ret ().

Definition errorBoundary (this : t) (errorHandler : BotError → Async unit)
    (mws : list Middleware) : t * t :=
  let composer := new mws in
  let bound := flatten (Obj (obj composer)) in
  let '(this, _) := use this [Fn (errorBoundary_fn errorHandler bound)] in
  (this, composer).

Definition handle (this : t) (ctx : Context) : Task unit :=
  run (middleware this ()) ctx.

End Composer.

(** * The payload of the context as shared state

    The context object of a dispatch is shared by all the middleware that
    run in it, and the fields of its payload may be written.  [Mutable] is
    the plumbing and the conditional combinators once more, with the
    payload as the state of the dispatch: [Get] reads [ctx.event] and [Put]
    replaces what it holds.  A predicate or a factory reads the payload as
    it is when the node is reached. *)

Module Mutable.

Definition Payload : Type := gmap string value.

(** The context object: its name is fixed, its payload is the state. *)
Record Context : Type := { eventName : string }.

Inductive Async (A : Type) : Type :=
| Ret (a : A)
| Throw (v : value)
| Emit (l : label) (k : Async A)
| CallNext (k : settled unit → Async A)
| Get (k : Payload → Async A)
| Put (e : Payload) (k : Async A).
Arguments Ret {A} a.
Arguments Throw {A} v.
Arguments Emit {A} l k.
Arguments CallNext {A} k.
Arguments Get {A} k.
Arguments Put {A} e k.

Fixpoint bind {A B : Type} (m : Async A) (f : A → Async B) : Async B :=
  match m with
  | Ret a => f a
  | Throw v => Throw v
  | Emit l k => Emit l (bind k f)
  | CallNext k => CallNext (λ o, bind (k o) f)
  | Get k => Get (λ e, bind (k e) f)
  | Put e k => Put e (bind k f)
  end.

Fixpoint try_ {A : Type} (m : Async A) : Async (settled A) :=
  match m with
  | Ret a => Ret (Fulfilled a)
  | Throw v => Ret (Rejected v)
  | Emit l k => Emit l (try_ k)
  | CallNext k => CallNext (λ o, try_ (k o))
  | Get k => Get (λ e, try_ (k e))
  | Put e k => Put e (try_ k)
  end.

Definition await {A : Type} (p : settled A) : Async A :=
  match p with
  | Fulfilled a => Ret a
  | Rejected v => Throw v
  end.

Definition await_next : Async unit := CallNext await.

Fixpoint emits {A : Type} (ls : list label) (k : Async A) : Async A :=
  match ls with
  | [] => k
  | l :: ls => Emit l (emits ls k)
  end.

Definition await_task {A : Type} (t : Task A) : Async A :=
  emits t.1 (await t.2).

Fixpoint call {S A : Type} (body : Async A)
    (next : S → Async (settled unit * S)) (s : S) : Async (A * S) :=
  match body with
  | Ret a => Ret (a, s)
  | Throw v => Throw v
  | Emit l k => Emit l (call k next s)
  | CallNext k => bind (next s) (λ x, call (k x.1) next x.2)
  | Get k => Get (λ e, call (k e) next s)
  | Put e k => Put e (call k next s)
  end.

Definition MiddlewareFn : Type := Context → Async unit.

Record MiddlewareObj : Type := { middleware : unit → MiddlewareFn }.

Inductive Middleware : Type :=
| Fn (f : MiddlewareFn)
| Obj (o : MiddlewareObj).

Definition flatten (mw : Middleware) : MiddlewareFn :=
  match mw with
  | Fn f => f
  | Obj o => λ ctx, middleware o () ctx
  end.

Definition concat_next (andThen : MiddlewareFn) (ctx : Context)
    (nextCalled : bool) : Async (settled unit * bool) :=
  if nextCalled then Ret (Rejected next_already_called, nextCalled)
  else bind (try_ (andThen ctx)) (λ r, Ret (r, true)).

Definition concat (first andThen : MiddlewareFn) : MiddlewareFn :=
  λ ctx,
    bind (call (first ctx) (concat_next andThen ctx) false) (λ _, Ret ()).

Definition pass : MiddlewareFn := λ _ctx, await_next.

(** A body under the terminal continuation, from the payload [e]: what it
    does and the payload it leaves. *)
Fixpoint with_leaf {A : Type} (body : Async A) (e : Payload)
    : Task A * Payload :=
  match body with
  | Ret a => (([], Fulfilled a), e)
  | Throw v => (([], Rejected v), e)
  | Emit l k => let '((ls, r), e') := with_leaf k e in ((l :: ls, r), e')
  | CallNext k => with_leaf (k (Fulfilled ())) e
  | Get k => with_leaf (k e) e
  | Put e' k => with_leaf k e'
  end.

Definition run (middleware : MiddlewareFn) (ctx : Context) (e : Payload)
    : Task unit :=
  (with_leaf (middleware ctx) e).1.

Module Composer.

Record t : Type := { handler : MiddlewareFn }.

Definition middleware (this : t) (_ : unit) : MiddlewareFn := handler this.

Definition obj (this : t) : MiddlewareObj :=
  Build_MiddlewareObj (middleware this).

Definition new (middleware : list Middleware) : t :=
  {| handler :=
       match flatten <$> middleware with
       | [] => pass
       | f :: fs => foldl concat f fs
       end |}.

Definition use (this : t) (mws : list Middleware) : t * t :=
  let composer := new mws in
  ({| handler := concat (handler this) (flatten (Obj (obj composer))) |},
   composer).

Definition lazy_fn
    (middlewareFactory : Context → Payload → Task (MaybeArray Middleware))
    : MiddlewareFn :=
  λ ctx,
    Get (λ e,
      bind (await_task (middlewareFactory ctx e)) (λ mw,
        let arr := to_array mw in
        flatten (Obj (obj (new arr))) ctx)).

Definition lazy (this : t)
    (middlewareFactory : Context → Payload → Task (MaybeArray Middleware))
    : t * t :=
  use this [Fn (lazy_fn middlewareFactory)].

Definition branch (this : t) (predicate : Context → Payload → Task bool)
    (trueMiddleware falseMiddleware : MaybeArray Middleware) : t * t :=
  lazy this (λ ctx e,
    then_ (predicate ctx e) (λ b,
      resolve (if b then trueMiddleware else falseMiddleware))).

Definition filter (this : t) (predicate : Context → Payload → Task bool)
    (mws : list Middleware) : t * t :=
  let composer := new mws in
  let '(this, _) :=
    branch this predicate (One (Obj (obj composer))) (One (Fn pass)) in
  (this, composer).

Definition drop (this : t) (predicate : Context → Payload → Task bool)
    (mws : list Middleware) : t * t :=
  filter this (λ ctx e, then_ (predicate ctx e) (λ b, resolve (negb b))) mws.

(** [handle(ctx)], for the context [ctx] whose payload is [e]. *)
Definition handle (this : t) (ctx : Context) (e : Payload) : Task unit :=
  run (middleware this ()) ctx e.

End Composer.

(** The body writes nothing to the payload. *)
Fixpoint read_only {A : Type} (m : Async A) : Prop :=
  match m with
  | Ret _ | Throw _ => True
  | Emit _ k => read_only k
  | CallNext k => ∀ o, read_only (k o)
  | Get k => ∀ e, read_only (k e)
  | Put _ _ => False
  end.

Inductive eqv {A : Type} : Async A → Async A → Prop :=
| eqv_Ret a : eqv (Ret a) (Ret a)
| eqv_Throw v : eqv (Throw v) (Throw v)
| eqv_Emit l k k' : eqv k k' → eqv (Emit l k) (Emit l k')
| eqv_CallNext k k' : (∀ o, eqv (k o) (k' o)) → eqv (CallNext k) (CallNext k')
| eqv_Get k k' : (∀ e, eqv (k e) (k' e)) → eqv (Get k) (Get k')
| eqv_Put e k k' : eqv k k' → eqv (Put e k) (Put e k').

(** [c.filter(predicate, ...ms1); c.drop(predicate, ...ms2)] on a fresh
    composer [c]. *)
Definition filter_then_drop (predicate : Context → Payload → Task bool)
    (ms1 ms2 : list Middleware) : Composer.t :=
  let this := Composer.new [] in
  let this := (Composer.filter this predicate ms1).1 in
  (Composer.drop this predicate ms2).1.

(** [(ctx) => 'pending' in ctx.event] *)
Definition is_pending : Context → Payload → Task bool :=
  λ _ e, resolve (bool_decide (is_Some (e !! "pending"))).

(** [async (ctx, next) => { log(l); delete ctx.event.pending; await next(); }] *)
Definition settle (l : label) : MiddlewareFn :=
  λ _, Emit l (Get (λ e, Put (delete "pending" e) await_next)).

(** [async (ctx, next) => { log(l); await next(); }] *)
Definition say (l : label) : MiddlewareFn := λ _, Emit l await_next.

End Mutable.

(** * Vocabulary of the statements *)

(** ** Equality of bodies

    Two bodies are the same when they are the same tree, the functions
    under [CallNext] compared point by point. *)

Inductive eqv {A : Type} : Async A → Async A → Prop :=
| eqv_Ret a : eqv (Ret a) (Ret a)
| eqv_Throw v : eqv (Throw v) (Throw v)
| eqv_Emit l k k' : eqv k k' → eqv (Emit l k) (Emit l k')
| eqv_CallNext k k' : (∀ o, eqv (k o) (k' o)) → eqv (CallNext k) (CallNext k').

Infix "≈" := eqv (at level 70, no associativity).

(** Two middleware functions that do the same on every context. *)
Definition mw_eqv (m m' : MiddlewareFn) : Prop := ∀ ctx, m ctx ≈ m' ctx.

Infix "≈ₘ" := mw_eqv (at level 70, no associativity).

(** ** Shapes of bodies *)

(** The body never invokes its continuation before it settles. *)
Fixpoint no_next {A : Type} (m : Async A) : bool :=
  match m with
  | Ret _ | Throw _ => true
  | Emit _ k => no_next k
  | CallNext _ => false
  end.

(** The body never throws: what may fail inside is caught inside. *)
Fixpoint no_throw {A : Type} (m : Async A) : Prop :=
  match m with
  | Ret _ => True
  | Throw _ => False
  | Emit _ k => no_throw k
  | CallNext k => ∀ o, no_throw (k o)
  end.

(** The body has no observable effect of its own. *)
Fixpoint silent {A : Type} (m : Async A) : Prop :=
  match m with
  | Ret _ | Throw _ => True
  | Emit _ _ => False
  | CallNext k => ∀ o, silent (k o)
  end.

(** The body, every invocation of its continuation refused with the error
    of [concat]. *)
Fixpoint refuse {A : Type} (m : Async A) : Async A :=
  match m with
  | Ret a => Ret a
  | Throw v => Throw v
  | Emit l k => Emit l (refuse k)
  | CallNext k => refuse (k (Rejected next_already_called))
  end.

(** ** Activations of an error boundary *)

(** An activation under [cont]: its effects, then the thrown value or the
    last value of [nextCalled]. *)
Definition guarded {A : Type} (m : Async A) : Task (A * bool) :=
  with_leaf (call m Composer.cont false).

(** [if (nextCalled) await next()] *)
Definition resume (nextCalled : bool) : Async unit :=
  if nextCalled then await_next else Ret ().

(** What a boundary does after an activation [m] that it ran under [cont]:
    it awaits the outer continuation when [m] returned and had invoked its
    own, it returns when [m] returned without, and it throws what [m]
    threw. *)
Definition after {A : Type} (m : Async A) : Async unit :=
  match (with_leaf m).2 with
  | Fulfilled _ => if no_next m then Ret () else await_next
  | Rejected e => Throw e
  end.

(** ** Queries *)

(** The string has an occurrence of the separator. *)
Fixpoint contains (sep : ascii) (s : string) : bool :=
  match s with
  | EmptyString => false
  | String c s' => Ascii.eqb c sep || contains sep s'
  end.

(** ** Chains and sample inputs *)

(** The chain in which every unit has the later ones as its continuation. *)
Fixpoint chain (f : MiddlewareFn) (fs : list MiddlewareFn) : MiddlewareFn :=
  match fs with
  | [] => f
  | g :: gs => concat f (chain g gs)
  end.

(** [c.use(A); c.use(B); c.use(C)] on a fresh composer [c]. *)
Definition chain3 (A B C : MiddlewareFn) : Composer.t :=
  let this := Composer.new [] in
  let this := (Composer.use this [Fn A]).1 in
  let this := (Composer.use this [Fn B]).1 in
  (Composer.use this [Fn C]).1.

(** A middleware that reports [l] when it starts. *)
Definition started (l : label) (m : MiddlewareFn) : MiddlewareFn :=
  λ ctx, Emit l (m ctx).

(** [{ eventName: 'push', event: {} }] *)
Definition push_ctx : Context := {| eventName := "push"; event := ∅ |}.

(** [async (ctx, next) => { await next(); await next(); }] *)
Definition double_next : MiddlewareFn := λ _, await_next ;; await_next.

(** A middleware that awaits its continuation twice and reports how the
    second promise settled. *)
Definition second_call_probe : MiddlewareFn :=
  λ _, CallNext (λ _, CallNext (λ o,
    match o with
    | Fulfilled _ => Emit "second next() fulfilled" (Ret ())
    | Rejected _ => Emit "second next() rejected" (Ret ())
    end)).

(** [(err) => { throw err }]: a handler that gives up. *)
Definition rethrow : BotError → Async unit :=
  λ err, Throw (BotError_value err).

(** [(err) => { log(err.message) }]: a handler that does not resume. *)
Definition log_message : BotError → Async unit :=
  λ err, Emit (message err) (Ret ()).

(** [async (ctx, next) => { log(l); await next(); }] *)
Definition say (l : label) : MiddlewareFn := λ _, Emit l await_next.

(** [{ eventName: 'issues', event: {} }]: a payload without [action]. *)
Definition issues_ctx : Context := {| eventName := "issues"; event := ∅ |}.

(** [Object.prototype.toString] called as a middleware: it returns a string
    and does not invoke its second argument. *)
Definition Object_prototype_toString : MiddlewareFn := λ _, Ret ().

(** An object with the own handler [a] whose prototype has the one member
    [toString], the function that every object literal inherits:
    [Object.assign(Object.create(proto), { a: A })] with
    [proto = Object.assign(Object.create(null),
    { toString: Object.prototype.toString })]. *)
Definition handlers_a : RouteHandlers :=
  {| own := {["a" := Handler (Fn (say "A"))]};
     inherited := {["toString" := Handler (Fn Object_prototype_toString)]} |}.

(** [{ eventName: 'issues', event: { action: 'opened' } }] *)
Definition issues_opened_ctx : Context :=
  {| eventName := "issues"; event := {["action" := VString "opened"]} |}.

(** * Properties *)

(** ** Equality of bodies is a congruence *)

Create HintDb async discriminated.
#[export] Hint Constructors eqv : async.

Section eqv.
Context {A : Type}.

Lemma eqv_refl (m : Async A) : m ≈ m.
Proof. induction m; auto with async. Qed.

Lemma eqv_sym (m m' : Async A) : m ≈ m' → m' ≈ m.
Proof. induction 1; auto with async. Qed.

Lemma eqv_trans (m1 m2 m3 : Async A) : m1 ≈ m2 → m2 ≈ m3 → m1 ≈ m3.
Proof.
  intros H; revert m3.
  induction H as [a|v|l k k' _ IH|k k' _ IH]; intros m3 H3; auto.
  - inversion H3; subst; auto with async.
  - inversion H3; subst; auto with async.
Qed.

#[export] Instance eqv_equivalence : Equivalence (@eqv A).
Proof.
  split; [exact eqv_refl | exact eqv_sym | exact eqv_trans].
Qed.

Lemma with_leaf_eqv (m m' : Async A) : m ≈ m' → with_leaf m = with_leaf m'.
Proof. induction 1; simpl; auto. by rewrite IHeqv. Qed.

Lemma emits_eqv ls (m m' : Async A) : m ≈ m' → emits ls m ≈ emits ls m'.
Proof. intros H; induction ls; simpl; auto with async. Qed.

Lemma try_eqv (m m' : Async A) : m ≈ m' → try_ m ≈ try_ m'.
Proof. induction 1; simpl; auto with async. Qed.
End eqv.

#[export] Hint Resolve eqv_refl : async.

Lemma bind_eqv {A B} (m m' : Async A) (f f' : A → Async B) :
  m ≈ m' → (∀ a, f a ≈ f' a) → bind m f ≈ bind m' f'.
Proof. intros H Hf; induction H; simpl; auto with async. Qed.

Lemma bind_eqv_l {A B} (m m' : Async A) (f : A → Async B) :
  m ≈ m' → bind m f ≈ bind m' f.
Proof. intros H; apply bind_eqv; auto with async. Qed.

Lemma bind_eqv_r {A B} (m : Async A) (f f' : A → Async B) :
  (∀ a, f a ≈ f' a) → bind m f ≈ bind m f'.
Proof. intros H; apply bind_eqv; auto with async. Qed.

Lemma call_eqv {S A} (m m' : Async A) (n n' : S → Async (settled unit * S)) s :
  m ≈ m' → (∀ s, n s ≈ n' s) → call m n s ≈ call m' n' s.
Proof.
  intros H Hn; revert s.
  induction H as [a|v|l k k' _ IH|k k' _ IH]; intros s; simpl; auto with async.
  apply bind_eqv; [done|]. intros [o s']; auto.
Qed.

#[export] Instance with_leaf_proper {A} : Proper (eqv ==> eq) (@with_leaf A).
Proof. intros m m'; apply with_leaf_eqv. Qed.

#[export] Instance mw_eqv_equivalence : Equivalence mw_eqv.
Proof.
  split.
  - intros m ctx; reflexivity.
  - intros m m' H ctx; symmetry; apply H.
  - intros m1 m2 m3 H1 H2 ctx; etrans; [apply H1 | apply H2].
Qed.

(** ** The monad of bodies *)

Lemma bind_ret_r {A} (m : Async A) : bind m Ret ≈ m.
Proof. induction m; simpl; auto with async. Qed.

Lemma bind_assoc {A B C} (m : Async A) (f : A → Async B) (g : B → Async C) :
  bind (bind m f) g ≈ bind m (λ a, bind (f a) g).
Proof. induction m; simpl; auto with async. Qed.

Lemma bind_unit (m : Async unit) : (m ;; Ret ()) ≈ m.
Proof. induction m as [[]| | |]; simpl; auto with async. Qed.

Lemma bind_emits {A B} ls (m : Async A) (f : A → Async B) :
  bind (emits ls m) f = emits ls (bind m f).
Proof. induction ls; simpl; congruence. Qed.

Lemma try_emits {A} ls (m : Async A) : try_ (emits ls m) = emits ls (try_ m).
Proof. induction ls; simpl; congruence. Qed.

Lemma call_emits {S A} ls (m : Async A) (n : S → Async (settled unit * S)) s :
  call (emits ls m) n s = emits ls (call m n s).
Proof. induction ls; simpl; congruence. Qed.

Lemma emits_app {A} ls ls' (m : Async A) :
  emits (ls ++ ls') m = emits ls (emits ls' m).
Proof. induction ls; simpl; congruence. Qed.

Lemma try_await {A} (m : Async A) : (r <- try_ m ;; await r) ≈ m.
Proof. induction m; simpl; auto with async. Qed.

Lemma call_bind {S A B} (m : Async A) (f : A → Async B)
    (n : S → Async (settled unit * S)) s :
  call (bind m f) n s ≈ ('(a, s') <- call m n s ;; call (f a) n s').
Proof.
  revert s; induction m as [a|v|l k IH|k IH]; intros s; simpl; auto with async.
  etrans; [|symmetry; apply bind_assoc].
  apply bind_eqv_r. intros [o s']; apply IH.
Qed.

(** What a body does under the terminal continuation. *)
Lemma with_leaf_bind {A B} (m : Async A) (f : A → Async B) :
  with_leaf (bind m f) = then_ (with_leaf m) (λ a, with_leaf (f a)).
Proof.
  induction m as [a|v|l k IH|k IH]; simpl; auto.
  - by destruct (with_leaf (f a)).
  - rewrite IH. destruct (with_leaf k) as [ls [a|v]]; simpl; auto.
    by destruct (with_leaf (f a)).
Qed.

Lemma with_leaf_emits {A} ls (m : Async A) :
  with_leaf (emits ls m) = ((ls ++ (with_leaf m).1)%list, (with_leaf m).2).
Proof.
  induction ls as [|l ls IH]; simpl.
  - by destruct (with_leaf m).
  - by rewrite IH.
Qed.

(** ** Shapes of bodies *)

Lemma refuse_emits {A} ls (m : Async A) :
  refuse (emits ls m) = emits ls (refuse m).
Proof. induction ls; simpl; congruence. Qed.

Lemma no_next_refuse {A} (m : Async A) : no_next (refuse m) = true.
Proof. induction m; simpl; auto. Qed.

Lemma no_throw_try {A} (m : Async A) : no_throw (try_ m).
Proof. induction m; simpl; auto. Qed.

Lemma no_throw_bind {A B} (m : Async A) (f : A → Async B) :
  no_throw m → (∀ a, no_throw (f a)) → no_throw (bind m f).
Proof. induction m; simpl; intros; auto. Qed.

Lemma try_bind_no_throw {A B} (m : Async A) (f : A → Async B) :
  no_throw m → try_ (bind m f) ≈ (a <- m ;; try_ (f a)).
Proof. induction m; simpl; intros; try done; auto with async. Qed.

(** A body that never invokes its continuation does not depend on it. *)
Lemma call_no_next {S A} (m : Async A) (n : S → Async (settled unit * S)) s :
  no_next m = true → call m n s ≈ (a <- m ;; Ret (a, s)).
Proof. induction m; simpl; intros; try done; auto with async. Qed.

(** ** [concat] *)

Lemma no_throw_concat_next andThen ctx s : no_throw (concat_next andThen ctx s).
Proof.
  destruct s; simpl; [done|].
  apply no_throw_bind; [apply no_throw_try | done].
Qed.

(** Once [nextCalled] is set, every invocation in the activation is
    refused and [andThen] is not run again. *)
Lemma call_concat_next_called {A} (m : Async A) andThen ctx :
  call m (concat_next andThen ctx) true ≈ (a <- refuse m ;; Ret (a, true)).
Proof. induction m; simpl; auto with async. Qed.

(** The first invocation runs [andThen] with the outer continuation. *)
Lemma call_concat_next_first {A} (k : settled unit → Async A) andThen ctx :
  call (CallNext k) (concat_next andThen ctx) false
  ≈ (r <- try_ (andThen ctx) ;; a <- refuse (k r) ;; Ret (a, true)).
Proof.
  simpl. etrans; [apply bind_assoc|].
  apply bind_eqv_r. intros r; simpl.
  apply call_concat_next_called.
Qed.

Lemma concat_eqv first first' andThen andThen' ctx :
  first ctx ≈ first' ctx → andThen ctx ≈ andThen' ctx →
  concat first andThen ctx ≈ concat first' andThen' ctx.
Proof.
  intros H1 H2. unfold concat.
  apply bind_eqv; [|auto with async].
  apply call_eqv; [done|]. intros [|]; simpl; [reflexivity|].
  apply bind_eqv; [by apply try_eqv | auto with async].
Qed.

Lemma concat_pass_l m : concat pass m ≈ₘ m.
Proof.
  intros ctx. unfold concat, pass, await_next.
  etrans; [apply bind_eqv_l, call_concat_next_first|].
  etrans; [apply bind_assoc|].
  etrans; [|apply try_await].
  apply bind_eqv_r.
  intros [[]|v]; simpl; auto with async.
Qed.

(** If [first] never invokes its continuation, [andThen] does not run. *)
Lemma concat_no_next first andThen ctx :
  no_next (first ctx) = true → concat first andThen ctx ≈ first ctx.
Proof.
  intros H. unfold concat.
  etrans; [apply bind_eqv_l, call_no_next, H|].
  etrans; [apply bind_assoc|]. simpl. apply bind_unit.
Qed.

(** A first unit that invokes its continuation after the effects [ls]. *)
Lemma concat_call_next first andThen ctx ls k :
  first ctx = emits ls (CallNext k) →
  concat first andThen ctx
  ≈ emits ls (r <- try_ (andThen ctx) ;; refuse (k r)).
Proof.
  intros H. unfold concat. rewrite H, call_emits, bind_emits.
  apply emits_eqv.
  etrans; [apply bind_eqv_l, call_concat_next_first|].
  etrans; [apply bind_assoc|].
  apply bind_eqv_r. intros r.
  etrans; [apply bind_assoc|]. simpl. apply bind_unit.
Qed.

Lemma no_next_bind {A B} (m : Async A) (f : A → Async B) :
  no_next m = true → (∀ a, no_next (f a) = true) → no_next (bind m f) = true.
Proof. induction m; simpl; intros; auto. Qed.

(** Catching inside or outside the activation is the same, when the
    continuation reports its failures through the promise it returns. *)
Lemma call_try {S A B} (m : Async A) (n : S → Async (settled unit * S))
    (F : settled A → Async B) s :
  (∀ s, no_throw (n s)) →
  ('(r, _) <- call (try_ m) n s ;; F r)
  ≈ (r <- try_ ('(a, _) <- call m n s ;; Ret a) ;; F r).
Proof.
  intros Hn; revert s.
  induction m as [a|v|l k IH|k IH]; intros s; simpl; auto with async.
  etrans; [apply bind_assoc|].
  etrans; [|apply bind_eqv_l, try_eqv; symmetry; apply bind_assoc].
  etrans; [|apply bind_eqv_l; symmetry; apply try_bind_no_throw, Hn].
  etrans; [|symmetry; apply bind_assoc].
  apply bind_eqv_r. intros [o s']. apply IH.
Qed.

Lemma concat_assoc_call {A} (m : Async A) B C ctx :
  ('(x, _) <- call (call m (concat_next B ctx) false) (concat_next C ctx) false ;;
   Ret x.1)
  ≈ ('(a, _) <- call m (concat_next (concat B C) ctx) false ;; Ret a).
Proof.
  induction m as [a|v|l k IH|k _]; simpl call; simpl bind; auto with async.
  change (bind (concat_next ?n ctx false) ?f)
    with (call (CallNext k) (concat_next n ctx) false).
  trans ('(r, _) <- call (try_ (B ctx)) (concat_next C ctx) false ;;
         refuse (k r)).
  { etrans.
    { apply bind_eqv_l.
      etrans; [apply call_eqv; [apply call_concat_next_first|]|].
      { intros s; reflexivity. }
      apply call_bind. }
    etrans; [apply bind_assoc|].
    apply bind_eqv_r. intros [r sC].
    etrans; [apply bind_eqv_l, call_no_next|].
    { apply no_next_bind; [apply no_next_refuse | done]. }
    etrans; [apply bind_assoc|]. etrans; [apply bind_assoc|]. simpl.
    apply bind_ret_r. }
  etrans; [apply (call_try _ _ (λ r, refuse (k r))), no_throw_concat_next|].
  symmetry.
  etrans; [apply bind_eqv_l, call_concat_next_first|].
  etrans; [apply bind_assoc|].
  apply bind_eqv.
  - apply try_eqv. unfold concat. apply bind_eqv_r. by intros [[] ?].
  - intros r. etrans; [apply bind_assoc|]. simpl. apply bind_ret_r.
Qed.

(** [concat] is associative: a chain folded from the left is the chain in
    which every unit has all the later ones as its continuation. *)
Lemma concat_assoc A B C : concat (concat A B) C ≈ₘ concat A (concat B C).
Proof.
  intros ctx. unfold concat at 1 2.
  etrans; [apply bind_eqv_l, call_bind|].
  etrans; [apply bind_assoc|].
  trans ('(x, _) <-
           call (call (A ctx) (concat_next B ctx) false) (concat_next C ctx) false ;;
         Ret x.1).
  { apply bind_eqv_r. intros [[[] sB] sC]. simpl. reflexivity. }
  etrans; [apply concat_assoc_call|].
  unfold concat at 2. apply bind_eqv_r. by intros [[] s].
Qed.

Lemma chain_concat f g gs : chain (concat f g) gs ≈ₘ concat f (chain g gs).
Proof. destruct gs as [|h hs]; [reflexivity|]. apply concat_assoc. Qed.

(** The fold of the constructor, from the left, is the chain. *)
Lemma foldl_concat_chain f fs : foldl concat f fs ≈ₘ chain f fs.
Proof.
  revert f; induction fs as [|g gs IH]; intros f; [reflexivity|].
  simpl foldl. etrans; [apply IH|]. apply chain_concat.
Qed.

(** ** The composer: constructor and [use] *)

Lemma handler_new_chain m ms :
  Composer.handler (Composer.new (m :: ms)) ≈ₘ chain (flatten m) (flatten <$> ms).
Proof. apply foldl_concat_chain. Qed.

Lemma flatten_obj c : flatten (Obj (Composer.obj c)) ≈ₘ Composer.handler c.
Proof. intros ctx; reflexivity. Qed.

Lemma handler_new_nil : Composer.handler (Composer.new []) = pass.
Proof. reflexivity. Qed.

Lemma handler_new_one m : Composer.handler (Composer.new [m]) = flatten m.
Proof. reflexivity. Qed.

(** [use] appends the child to the chain of the receiver and returns it. *)
Lemma handler_use this mws ctx :
  Composer.handler (Composer.use this mws).1 ctx
  = concat (Composer.handler this) (Composer.handler (Composer.new mws)) ctx
  ∧ (Composer.use this mws).2 = Composer.new mws.
Proof. split; reflexivity. Qed.

(** ** The error boundary *)

Lemma call_cont {A} (m : Async A) s :
  call m Composer.cont s ≈ await_task (with_leaf (call m Composer.cont s)).
Proof.
  revert s; induction m as [a|v|l k IH|k IH]; intros s; simpl;
    auto with async.
  - unfold await_task in *. specialize (IH s).
    destruct (with_leaf (call k Composer.cont s)) as [ls r]; simpl in *.
    auto with async.
Qed.

Lemma call_cont_called {A} (m : Async A) ls a nextCalled :
  with_leaf (call m Composer.cont true) = (ls, Fulfilled (a, nextCalled)) →
  nextCalled = true.
Proof.
  revert ls; induction m as [b|v|l k IH|k IH]; intros ls; simpl.
  - by intros [= _ _ <-].
  - done.
  - destruct (with_leaf (call k Composer.cont true)) as [ls0 r] eqn:E.
    intros [= _ ->]. by apply (IH ls0).
  - apply IH.
Qed.

(** [nextCalled] is set when the activation invoked its continuation. *)
Lemma guarded_nextCalled {A} (m : Async A) ls a nextCalled :
  guarded m = (ls, Fulfilled (a, nextCalled)) → nextCalled = negb (no_next m).
Proof.
  unfold guarded.
  revert ls; induction m as [b|v|l k IH|k _]; intros ls; simpl.
  - by intros [= _ _ <-].
  - done.
  - destruct (with_leaf (call k Composer.cont false)) as [ls0 r] eqn:E.
    intros [= _ ->]. by apply (IH ls0).
  - apply call_cont_called.
Qed.

(** The boundary as a function of the two activations it awaits. *)
Lemma errorBoundary_fn_spec errorHandler bound ctx :
  Composer.errorBoundary_fn errorHandler bound ctx
  ≈ emits (guarded (bound ctx)).1
      match (guarded (bound ctx)).2 with
      | Fulfilled (_, nextCalled) => resume nextCalled
      | Rejected err =>
          match BotError_new err ctx with
          | Fulfilled botError =>
              emits (guarded (errorHandler botError)).1
                match (guarded (errorHandler botError)).2 with
                | Fulfilled (_, nextCalled) => resume nextCalled
                | Rejected e => Throw e
                end
          | Rejected e => Throw e
          end
      end.
Proof.
  unfold Composer.errorBoundary_fn, guarded.
  etrans; [apply bind_eqv_l, try_eqv, call_cont|].
  unfold await_task.
  destruct (with_leaf (call (bound ctx) Composer.cont false)) as [ls r].
  simpl fst; simpl snd. rewrite try_emits, bind_emits. apply emits_eqv.
  destruct r as [[[] nextCalled]|err]; simpl; [reflexivity|].
  destruct (BotError_new err ctx) as [botError|e]; simpl; [|reflexivity].
  etrans; [apply bind_eqv_l, bind_eqv_l, call_cont|].
  unfold await_task.
  destruct (with_leaf (call (errorHandler botError) Composer.cont false))
    as [ls' r'].
  simpl fst; simpl snd. rewrite !bind_emits. apply emits_eqv.
  destruct r' as [[[] nextCalled]|e]; simpl; reflexivity.
Qed.

(** ** Error normalization *)

Lemma message_of_Error name message :
  generateBotErrorMessage (VError name message)
  = Fulfilled (name +:+ " in middleware: " +:+ message).
Proof. reflexivity. Qed.

Lemma message_of_string s :
  generateBotErrorMessage (VString s)
  = Fulfilled ("Non-error value of type string thrown in middleware: "
               +:+ String.substring 0 50 s).
Proof. reflexivity. Qed.

Lemma message_of_boolean b :
  generateBotErrorMessage (VBoolean b)
  = Fulfilled ("Non-error value of type boolean thrown in middleware: "
               +:+ (if b then "true" else "false")).
Proof. reflexivity. Qed.

(** Number::toString prints an integer below 10^21 in absolute value by
    its decimal digits, and switches to the exponent notation from there
    on: the equation is stated in that range. *)
Lemma message_of_number n :
  (Z.abs n < 10 ^ 21)%Z →
  generateBotErrorMessage (VNumber n)
  = Fulfilled ("Non-error value of type number thrown in middleware: "
               +:+ pretty n).
Proof. intros _. reflexivity. Qed.

Lemma message_of_bigint n :
  generateBotErrorMessage (VBigInt n)
  = Fulfilled ("Non-error value of type bigint thrown in middleware: "
               +:+ pretty n).
Proof. reflexivity. Qed.

Lemma message_of_other v :
  v ∈ [VUndefined; VNull; VFunction; VObject] →
  generateBotErrorMessage v
  = Fulfilled ("Non-error value of type " +:+ typeof v
               +:+ " thrown in middleware!").
Proof.
  rewrite !elem_of_cons, elem_of_nil.
  intros [->|[->|[->|[->|[]]]]]; reflexivity.
Qed.

Lemma length_substring n m s :
  (String.length (String.substring n m s) ≤ m)%nat.
Proof.
  revert n m; induction s as [|c s IH]; intros [|n] [|m]; simpl; auto with lia.
  specialize (IH 0 m). lia.
Qed.

Lemma message_TypeError_bad :
  generateBotErrorMessage (VError "TypeError" "bad")
  = Fulfilled "TypeError in middleware: bad".
Proof. reflexivity. Qed.

Lemma message_nonerror :
  generateBotErrorMessage (VString "nonerror")
  = Fulfilled "Non-error value of type string thrown in middleware: nonerror".
Proof. reflexivity. Qed.

(** C8 (the case of the claim that the code misses).  A thrown symbol is
    not inlined into the message: the template literal of the [symbol]
    case converts it with ToString, which throws a TypeError, so that no
    message is produced at all. *)
Theorem message_of_symbol description :
  generateBotErrorMessage (VSymbol description)
  = Rejected (VError "TypeError" "Cannot convert a Symbol value to a string").
Proof. reflexivity. Qed.

(** ** Error boundaries *)

(** With the name and the message of an [Error] strings, as [value] has
    them, every thrown value but a symbol is wrapped. *)
Lemma BotError_new_wraps err c :
  (∀ description, err ≠ VSymbol description) →
  ∃ msg,
    BotError_new err c
    = Fulfilled {| error := err; ctx := c; message := msg; name := "BotError" |}.
Proof.
  intros Hsym. unfold BotError_new.
  destruct err; try (eexists; reflexivity). by destruct (Hsym description).
Qed.

(** A value thrown out of the guarded middleware, once wrapped, goes to
    the handler; what the dispatch does next is what the handler does:
    its effects, then the outer continuation if the handler invoked its
    own and returned, or the value the handler threw. *)
Lemma errorBoundary_catches errorHandler bound c ls err botError :
  guarded (bound c) = (ls, Rejected err) →
  BotError_new err c = Fulfilled botError →
  error botError = err ∧ ctx botError = c ∧
  Composer.errorBoundary_fn errorHandler bound c
  ≈ emits ls
      (emits (guarded (errorHandler botError)).1
         match (guarded (errorHandler botError)).2 with
         | Fulfilled (_, nextCalled) => resume nextCalled
         | Rejected e => Throw e
         end).
Proof.
  intros Hg Hnew. split_and!.
  - unfold BotError_new in Hnew.
    destruct (generateBotErrorMessage err); by simplify_eq.
  - unfold BotError_new in Hnew.
    destruct (generateBotErrorMessage err); by simplify_eq.
  - etrans; [apply errorBoundary_fn_spec|]. rewrite Hg; simpl.
    by rewrite Hnew.
Qed.

(** A guarded middleware that returns: the outer continuation is invoked
    when the middleware invoked its own. *)
Lemma errorBoundary_returns errorHandler bound c ls nextCalled :
  guarded (bound c) = (ls, Fulfilled ((), nextCalled)) →
  Composer.errorBoundary_fn errorHandler bound c ≈ emits ls (resume nextCalled).
Proof. intros Hg. etrans; [apply errorBoundary_fn_spec|]. by rewrite Hg. Qed.

(** C1 (the dispatch on which the code breaks the claim).  When the guarded
    middleware throws a symbol, the construction of the [BotError] throws a
    TypeError inside the catch block: the handler is not invoked, whatever
    it is, and the TypeError leaves the boundary and [handle]. *)
Theorem errorBoundary_symbol errorHandler description c :
  Composer.handle
    (Composer.errorBoundary (Composer.new []) errorHandler
       [Fn (λ _, Throw (VSymbol description))]).1 c
  = ([], Rejected (VError "TypeError" "Cannot convert a Symbol value to a string")).
Proof. reflexivity. Qed.

(** A handler that throws: the value leaves the boundary and is caught by
    the enclosing one, whose handler receives it wrapped again. *)
Lemma nested_boundaries :
  let inner :=
    (Composer.errorBoundary (Composer.new []) rethrow
       [Fn (λ _, Throw (VString "nonerror"))]).1 in
  Composer.handle
    (Composer.errorBoundary (Composer.new []) log_message
       [Obj (Composer.obj inner)]).1 push_ctx
  = (["BotError in middleware: Non-error value of type string thrown in middleware: nonerror"],
     Fulfilled ()).
Proof. reflexivity. Qed.

(** What an activation does under [cont] when its body is caught. *)
Lemma guarded_try {A} (m : Async A) s ls a s' :
  with_leaf (call m Composer.cont s) = (ls, Fulfilled (a, s')) →
  with_leaf (call (try_ m) Composer.cont s) = (ls, Fulfilled (Fulfilled a, s')).
Proof.
  revert s ls; induction m as [b|v|l k IH|k IH]; intros s ls; simpl.
  - by intros [= <- <- <-].
  - done.
  - destruct (with_leaf (call k Composer.cont s)) as [ls0 r] eqn:E.
    intros [= <- ->]. by rewrite (IH _ _ E).
  - apply IH.
Qed.

(** C2 (counterexample).  The first of two guarded middleware awaits its
    continuation twice.  The error of the second invocation does not leave
    the boundary: the handler receives it, wrapped, and [handle] completes. *)
Lemma double_next_is_handled :
  Composer.handle
    (Composer.errorBoundary (Composer.new []) log_message
       [Fn double_next; Fn (λ _, Ret ())]).1 push_ctx
  = (["Error in middleware: `next` already called before!"], Fulfilled ()).
Proof. reflexivity. Qed.

(** C2 (amended).  The error of a second invocation of the continuation is
    an ordinary [Error]: when it leaves the guarded middleware, the
    boundary catches it as any other thrown value, wraps it and hands it to
    the handler, and what the dispatch does next is what the handler does.
    Here the first guarded middleware awaits its continuation twice and the
    second one returns. *)
Theorem double_next_is_caught errorHandler andThen c ls nextCalled :
  guarded (andThen c) = (ls, Fulfilled ((), nextCalled)) →
  let botError :=
    {| error := next_already_called; ctx := c;
       message := "Error in middleware: `next` already called before!";
       name := "BotError" |} in
  Composer.errorBoundary_fn errorHandler (concat double_next andThen) c
  ≈ emits ls
      (emits (guarded (errorHandler botError)).1
         match (guarded (errorHandler botError)).2 with
         | Fulfilled (_, nextCalled) => resume nextCalled
         | Rejected e => Throw e
         end).
Proof.
  intros Hg botError.
  apply (errorBoundary_catches errorHandler _ c ls next_already_called);
    [|reflexivity].
  unfold guarded in *.
  erewrite with_leaf_eqv; last first.
  { apply call_eqv; [|intros s; reflexivity].
    by apply (concat_call_next double_next andThen c []). }
  erewrite with_leaf_eqv; [|apply call_bind].
  rewrite with_leaf_bind, (guarded_try _ _ _ _ _ Hg). simpl.
  by rewrite app_nil_r.
Qed.

Lemma double_next_is_caught_witness :
  guarded (Ret ()) = ([], Fulfilled ((), false)) ∧
  Composer.errorBoundary_fn log_message (concat double_next (λ _, Ret ()))
    push_ctx
  ≈ Emit "Error in middleware: `next` already called before!" (Ret ()).
Proof.
  split; [reflexivity|].
  apply (double_next_is_caught log_message (λ _, Ret ()) push_ctx [] false).
  reflexivity.
Defined.

(** ** The continuation is guarded by [concat] *)




(** ** Deferred selection: [lazy] and the combinators built on it *)

Lemma await_task_then {A B} (t : Task A) (f : A → Task B) :
  await_task (then_ t f) ≈ (a <- await_task t ;; await_task (f a)).
Proof.
  destruct t as [ls [a|v]]; unfold await_task; simpl.
  - destruct (f a) as [ls' r] eqn:E; simpl.
    rewrite bind_emits, emits_app. simpl. rewrite E. reflexivity.
  - rewrite bind_emits. reflexivity.
Qed.

(** The registered function runs the factory, then the composer made of
    what the factory returned. *)
Lemma lazy_fn_select {X} (t : Context → Task X)
    (select : X → MaybeArray Middleware) c :
  Composer.lazy_fn (λ c, then_ (t c) (λ x, resolve (select x))) c
  ≈ (x <- await_task (t c) ;;
     Composer.handler (Composer.new (to_array (select x))) c).
Proof.
  unfold Composer.lazy_fn.
  etrans; [apply bind_eqv_l, await_task_then|].
  etrans; [apply bind_assoc|]. apply bind_eqv_r. intros x. reflexivity.
Qed.

Lemma handler_lazy this factory c :
  Composer.handler (Composer.lazy this factory).1 c
  = concat (Composer.handler this) (Composer.lazy_fn factory) c.
Proof. reflexivity. Qed.

Lemma handler_branch this predicate T F c :
  Composer.handler (Composer.branch this predicate T F).1 c
  ≈ concat (Composer.handler this)
      (λ c, b <- await_task (predicate c) ;;
            Composer.handler (Composer.new (to_array (if b then T else F))) c) c.
Proof.
  unfold Composer.branch. rewrite handler_lazy.
  apply concat_eqv; [reflexivity|].
  apply (lazy_fn_select predicate (λ b : bool, if b then T else F)).
Qed.

Lemma handler_filter this predicate mws c :
  Composer.handler (Composer.filter this predicate mws).1 c
  ≈ concat (Composer.handler this)
      (λ c, b <- await_task (predicate c) ;;
            if b then Composer.handler (Composer.new mws) c else pass c) c.
Proof.
  change (Composer.handler (Composer.filter this predicate mws).1)
    with (Composer.handler
            (Composer.branch this predicate
               (One (Obj (Composer.obj (Composer.new mws))))
               (One (Fn pass))).1).
  etrans; [apply handler_branch|].
  apply concat_eqv; [reflexivity|].
  apply bind_eqv_r. by intros [|].
Qed.

Lemma handler_route this router routeHandlers fallback c :
  Composer.handler (Composer.route this router routeHandlers fallback).1 c
  ≈ concat (Composer.handler this)
      (λ c, route <- await_task (router c) ;;
            flatten
              match route with
              | None => default (Fn pass) fallback
              | Some route =>
                  match get_property routeHandlers route with
                  | Some (Handler m) => m
                  | Some Falsy | None => default (Fn pass) fallback
                  end
              end c) c.
Proof.
  unfold Composer.route. rewrite handler_lazy.
  apply concat_eqv; [reflexivity|].
  etrans; [apply (lazy_fn_select router)|].
  apply bind_eqv_r. intros [route|]; [|reflexivity].
  by destruct (get_property routeHandlers route) as [[|m]|].
Qed.

(** A node registered on a fresh composer is reached by every dispatch. *)
Lemma handler_root (node node' : MiddlewareFn) c :
  node c ≈ node' c →
  concat (Composer.handler (Composer.new [])) node c ≈ node' c.
Proof.
  intros H. etrans; [apply (concat_pass_l node)|]. exact H.
Qed.

Lemma handle_emits this ls (m : Async unit) c :
  Composer.handler this c ≈ emits ls m →
  Composer.handle this c = ((ls ++ (with_leaf m).1)%list, (with_leaf m).2).
Proof.
  intros H. unfold Composer.handle, run.
  change (Composer.middleware this () c) with (Composer.handler this c).
  by rewrite (with_leaf_eqv _ _ H), with_leaf_emits.
Qed.

(** Middleware registered after a node that passes through. *)
Lemma handle_after_pass this D c :
  Composer.handler this c ≈ pass c →
  Composer.handle (Composer.use this [Fn D]).1 c = run D c.
Proof.
  intros H. unfold Composer.handle, run.
  change (Composer.middleware ?x () c) with (Composer.handler x c).
  apply with_leaf_eqv.
  etrans; [apply (concat_eqv (Composer.handler this) pass D D c);
           [exact H|reflexivity]|].
  apply (concat_pass_l D).
Qed.

Lemma bind_await_task {A B} ls (a : A) (f : A → Async B) :
  (x <- await_task (ls, Fulfilled a) ;; f x) = emits ls (f a).
Proof. unfold await_task; simpl. by rewrite bind_emits. Qed.



(** C5 (the dispatch on which the code breaks the claim).  The router
    returns ['toString'], a key under which no handler is registered.  The
    test [!routeHandlers[route]] that sends the unmapped keys to the
    fallback reads through the prototype chain and finds the function that
    the object inherits, which is truthy: it is run in the place of the
    fallback, returns without invoking its continuation, and the fallback
    does not run.  A key found nowhere selects the fallback. *)
Lemma route_inherited_key :
  Composer.handle
    (Composer.route (Composer.new []) (λ _, resolve (Some "toString"))
       handlers_a (Some (Fn (say "fallback")))).1 push_ctx
  = ([], Fulfilled ())
  ∧ Composer.handle
      (Composer.route (Composer.new []) (λ _, resolve (Some "b"))
         handlers_a (Some (Fn (say "fallback")))).1 push_ctx
    = (["fallback"], Fulfilled ()).
Proof. split; reflexivity. Qed.

(** X18.  On a dispatch where the router settles on [key] after
    the effects [ls], [route] runs one middleware: the value that
    [routeHandlers[key]] yields, own or inherited through the prototype
    chain, when the key is defined and that value is truthy, and the
    fallback ([pass] when none is given) when the key is undefined, when
    the lookup finds nothing, or when it finds a falsy entry.  From the
    root, [handle] has the effects of the router, then those of the
    selected middleware, and settles as it does. *)
Theorem route_one_branch this router routeHandlers fallback c ls key :
  router c = (ls, Fulfilled key) →
  ∃ selected : Middleware,
    ((∃ k, key = Some k
           ∧ get_property routeHandlers k = Some (Handler selected)
           ∧ (own routeHandlers !! k = Some (Handler selected)
              ∨ (own routeHandlers !! k = None
                 ∧ inherited routeHandlers !! k = Some (Handler selected))))
     ∨ ((key = None
         ∨ ∃ k, key = Some k
                ∧ ((own routeHandlers !! k = None
                    ∧ inherited routeHandlers !! k = None)
                   ∨ get_property routeHandlers k = Some Falsy))
        ∧ selected = default (Fn pass) fallback))
    ∧ Composer.handle
        (Composer.route (Composer.new []) router routeHandlers fallback).1 c
      = ((ls ++ (run (flatten selected) c).1)%list,
         (run (flatten selected) c).2)
    ∧ Composer.handler
        (Composer.route (Composer.new []) router routeHandlers fallback).1 c
      ≈ emits ls (flatten selected c)
    ∧ Composer.handler (Composer.route this router routeHandlers fallback).1 c
      ≈ concat (Composer.handler this) (λ _, emits ls (flatten selected c)) c.
Proof.
  intros Hr.
  set (chosen :=
    match key with
    | None => default (Fn pass) fallback
    | Some route =>
        match get_property routeHandlers route with
        | Some (Handler m) => m
        | Some Falsy | None => default (Fn pass) fallback
        end
    end).
  assert (∀ this,
    Composer.handler (Composer.route this router routeHandlers fallback).1 c
    ≈ concat (Composer.handler this) (λ _, emits ls (flatten chosen c)) c)
    as Hnf.
  { intros this'. etrans; [apply handler_route|].
    apply concat_eqv; [reflexivity|]. by rewrite Hr, bind_await_task. }
  assert (Composer.handler
            (Composer.route (Composer.new []) router routeHandlers fallback).1 c
          ≈ emits ls (flatten chosen c)) as Hroot.
  { etrans; [apply Hnf|].
    apply (concat_pass_l (λ _, emits ls (flatten chosen c))). }
  exists chosen. split_and!; [|by apply handle_emits|done|done].
  unfold chosen, get_property. destruct key as [k|]; [|right; eauto].
  destruct (own routeHandlers !! k) as [[|m]|] eqn:Eown.
  - right. split; [|done]. right. exists k. split; [done|]. right.
    by rewrite Eown.
  - left. exists k. rewrite Eown. eauto.
  - destruct (inherited routeHandlers !! k) as [[|m]|] eqn:Einh.
    + right. split; [|done]. right. exists k. split; [done|]. right.
      by rewrite Eown.
    + left. exists k. rewrite Eown. eauto.
    + right. split; [|done]. right. exists k. split; [done|]. by left.
Qed.

Lemma route_one_branch_witness :
  ∃ selected : Middleware,
    Composer.handle
      (Composer.route (Composer.new []) (λ _, (["r"], Fulfilled (Some "a")))
         handlers_a (Some (Fn (say "fallback")))).1 push_ctx
    = ((["r"] ++ (run (flatten selected) push_ctx).1)%list,
       (run (flatten selected) push_ctx).2).
Proof.
  destruct (route_one_branch (Composer.new [])
              (λ _, (["r"], Fulfilled (Some "a"))) handlers_a
              (Some (Fn (say "fallback"))) push_ctx ["r"] (Some "a") eq_refl)
    as (selected & _ & H & _).
  exists selected. exact H.
Defined.

(** ** Event queries: [on] *)

Lemma split_no_sep sep s : contains sep s = false → split sep s = [s].
Proof.
  induction s as [|c s IH]; simpl; [done|].
  intros [Hc Hs]%orb_false_elim. by rewrite Hc, (IH Hs).
Qed.

Lemma split_app sep s1 s2 :
  contains sep s1 = false →
  split sep (s1 +:+ String sep s2) = s1 :: split sep s2.
Proof.
  induction s1 as [|c s1 IH]; simpl.
  - intros _. by rewrite Ascii.eqb_refl.
  - intros [Hc Hs]%orb_false_elim. by rewrite Hc, (IH Hs).
Qed.

Lemma split_nonempty sep s : ∃ w ws, split sep s = w :: ws.
Proof.
  induction s as [|c s (w & ws & IH)]; simpl; [eauto|].
  destruct (Ascii.eqb c sep); [eauto|]. rewrite IH. eauto.
Qed.

(** A query with a dot has a second part. *)
Lemma split_second sep s1 s2 :
  ∃ a, split sep (s1 +:+ String sep s2) !! 1%nat = Some a.
Proof.
  induction s1 as [|c s1 [a IH]]; simpl.
  - rewrite Ascii.eqb_refl. destruct (split_nonempty sep s2) as (w & ws & ->).
    by exists w.
  - destruct (Ascii.eqb c sep).
    + destruct (split_nonempty sep (s1 +:+ String sep s2)) as (w & ws & ->).
      by exists w.
    + destruct (split sep (s1 +:+ String sep s2)) as [|w [|w' ws]];
        simplify_eq/=. by exists a.
Qed.

Lemma matches_event c ev :
  contains "." ev = false →
  Composer.matches c ev = true ↔ eventName c = ev.
Proof.
  intros Hev. unfold Composer.matches. rewrite (split_no_sep _ _ Hev). simpl.
  destruct (String.eqb_spec ev (eventName c)) as [Heq|Hne]; simpl.
  - by split.
  - split; [done|]. by intros <-.
Qed.

Lemma matches_event_action c ev action :
  contains "." ev = false → contains "." action = false →
  Composer.matches c (ev +:+ "." +:+ action) = true
  ↔ eventName c = ev ∧ event c !! "action" = Some (VString action).
Proof.
  intros Hev Hact. unfold Composer.matches.
  change ("." +:+ action) with (String "." action).
  rewrite (split_app _ _ _ Hev), (split_no_sep _ _ Hact). simpl.
  destruct (String.eqb_spec ev (eventName c)) as [Heq|Hne]; simpl.
  - destruct (event c !! "action") as [v|]; simpl.
    + rewrite bool_decide_eq_true. split; [by intros <-|by intros [_ [= <-]]].
    + split; [done|]. by intros [_ ?].
  - split; [done|]. by intros [<- _].
Qed.

Lemma matches_without_action c ev action :
  event c !! "action" = None →
  Composer.matches c (ev +:+ "." +:+ action) = false.
Proof.
  intros Hnone. unfold Composer.matches.
  change ("." +:+ action) with (String "." action).
  destruct (split_second "." ev action) as [a ->].
  destruct (negb _); [done|]. by rewrite Hnone.
Qed.

Lemma handler_on this filter_ mws c :
  Composer.handler (Composer.on this filter_ mws).1 c
  ≈ concat (Composer.handler this)
      (if existsb (Composer.matches c) (to_array filter_)
       then Composer.handler (Composer.new mws) else pass) c.
Proof.
  etrans; [apply handler_filter|].
  apply concat_eqv; [reflexivity|]. simpl.
  by destruct (existsb _ _).
Qed.

(** C4.  [on] runs the child when at least one of the queries matches the
    context and passes through otherwise.  From the root, [handle] is the
    run of the child on a match and completes at once otherwise; a
    middleware [D] registered after the node runs as if the node were not
    there when no query matches; behind a chain [this], the node is the
    continuation of the chain.  A query [ev] matches when the event name is
    [ev]; a query [ev.action] matches when the event name is [ev] and the
    payload has the field [action] with the string [action] as its value.
    So ["push"] matches the push events and ["issues.opened"] the issues
    events whose action is [opened]. *)
Theorem on_runs_iff_match this mws D c ev action :
  contains "." ev = false → contains "." action = false →
  (∀ filter_,
     let matched := existsb (Composer.matches c) (to_array filter_) in
     let child := Composer.handler (Composer.new mws) in
     (matched = true ↔ ∃ q, q ∈ to_array filter_ ∧ Composer.matches c q = true)
     ∧ Composer.handle (Composer.on (Composer.new []) filter_ mws).1 c
       = (if matched then run child c else ([], Fulfilled ()))
     ∧ Composer.handler (Composer.on (Composer.new []) filter_ mws).1 c
       ≈ (if matched then child c else pass c)
     ∧ (matched = false →
        Composer.handle
          (Composer.use (Composer.on (Composer.new []) filter_ mws).1 [Fn D]).1 c
        = run D c)
     ∧ Composer.handler (Composer.on this filter_ mws).1 c
       ≈ concat (Composer.handler this) (if matched then child else pass) c)
  ∧ (Composer.matches c ev = true ↔ eventName c = ev)
  ∧ (Composer.matches c (ev +:+ "." +:+ action) = true
     ↔ eventName c = ev ∧ event c !! "action" = Some (VString action))
  ∧ (Composer.matches c "push" = true ↔ eventName c = "push")
  ∧ (Composer.matches c "issues.opened" = true
     ↔ eventName c = "issues" ∧ event c !! "action" = Some (VString "opened")).
Proof.
  intros Hev Hact. split_and!.
  - intros filter_ matched child.
    assert (Composer.handler (Composer.on (Composer.new []) filter_ mws).1 c
            ≈ (if matched then child c else pass c)) as Hroot.
    { etrans; [apply handler_on|]. fold matched. fold child.
      etrans; [apply (concat_pass_l (if matched then child else pass))|].
      by destruct matched. }
    split_and!.
    + unfold matched. rewrite existsb_exists.
      by setoid_rewrite list_elem_of_In.
    + unfold Composer.handle, run.
      change (Composer.middleware ?x () c) with (Composer.handler x c).
      rewrite (with_leaf_eqv _ _ Hroot). by destruct matched.
    + exact Hroot.
    + intros Hm. apply handle_after_pass. by rewrite Hm in Hroot.
    + apply handler_on.
  - by apply matches_event.
  - by apply matches_event_action.
  - by apply matches_event.
  - by apply (matches_event_action c "issues" "opened").
Qed.

Lemma on_runs_iff_match_witness :
  Composer.handle
    (Composer.on (Composer.new []) (Many ["push"; "issues.opened"])
       [Fn (say "child")]).1 issues_opened_ctx
  = (["child"], Fulfilled ())
  ∧ Composer.handle
      (Composer.use
         (Composer.on (Composer.new []) (One "push") [Fn (say "child")]).1
         [Fn (say "later")]).1 issues_opened_ctx
    = (["later"], Fulfilled ())
  ∧ (Composer.matches issues_opened_ctx "issues.opened" = true
     ↔ eventName issues_opened_ctx = "issues"
       ∧ event issues_opened_ctx !! "action" = Some (VString "opened")).
Proof.
  pose proof (on_runs_iff_match (Composer.new []) [Fn (say "child")]
                (say "later") issues_opened_ctx "issues" "opened"
                eq_refl eq_refl)
    as (Hon & _ & H & _).
  split_and!; [| |exact H].
  - exact (proj1 (proj2 (Hon (Many ["push"; "issues.opened"])))).
  - exact (proj1 (proj2 (proj2 (proj2 (Hon (One "push"))))) eq_refl).
Defined.

(** C10.  When the payload has no field [action], a query with an action
    does not match, also when the event name is the one of the query: the
    predicate of [on] settles on [false] without throwing, the child is
    skipped and the rest of the chain proceeds.  From the root, [handle]
    completes at once, and a middleware [D] registered after the node runs
    as if the node were not there. *)
Theorem on_without_action this mws D c ev action :
  event c !! "action" = None →
  let q := ev +:+ "." +:+ action in
  Composer.on_predicate (One q) c = ([], Fulfilled false)
  ∧ Composer.handle (Composer.on (Composer.new []) (One q) mws).1 c
    = ([], Fulfilled ())
  ∧ Composer.handle
      (Composer.use (Composer.on (Composer.new []) (One q) mws).1 [Fn D]).1 c
    = run D c
  ∧ Composer.handler (Composer.on this (One q) mws).1 c
    ≈ concat (Composer.handler this) pass c.
Proof.
  intros Hnone q.
  assert (existsb (Composer.matches c) [q] = false) as Hq.
  { cbn [existsb]. unfold q.
    by rewrite (matches_without_action c ev action Hnone). }
  assert (∀ this,
    Composer.handler (Composer.on this (One q) mws).1 c
    ≈ concat (Composer.handler this) pass c) as Hnf.
  { intros this'. etrans; [apply handler_on|]. simpl to_array.
    by rewrite Hq. }
  assert (Composer.handler (Composer.on (Composer.new []) (One q) mws).1 c
          ≈ pass c) as Hroot.
  { etrans; [apply Hnf|]. apply (concat_pass_l pass). }
  split_and!.
  - unfold Composer.on_predicate, resolve. simpl to_array. by rewrite Hq.
  - unfold Composer.handle, run.
    change (Composer.middleware ?x () c) with (Composer.handler x c).
    by rewrite (with_leaf_eqv _ _ Hroot).
  - by apply handle_after_pass.
  - apply Hnf.
Qed.

Lemma on_without_action_witness :
  eventName issues_ctx = "issues"
  ∧ Composer.on_predicate (One "issues.opened") issues_ctx
    = ([], Fulfilled false)
  ∧ Composer.handle
      (Composer.on (Composer.new []) (One "issues.opened")
         [Fn (say "child")]).1 issues_ctx
    = ([], Fulfilled ())
  ∧ Composer.handle
      (Composer.use
         (Composer.on (Composer.new []) (One "issues.opened")
            [Fn (say "child")]).1 [Fn (say "rest")]).1 issues_ctx
    = (["rest"], Fulfilled ()).
Proof.
  pose proof (on_without_action (Composer.new []) [Fn (say "child")]
                (say "rest") issues_ctx "issues" "opened" eq_refl)
    as (Hp & Hh & Hd & _).
  split_and!; [reflexivity|exact Hp|exact Hh|exact Hd].
Defined.

(** ** Registration order *)

Lemma handler_chain3 A B C :
  Composer.handler (chain3 A B C) ≈ₘ concat A (concat B C).
Proof.
  intros ctx.
  trans (concat (concat A B) C ctx).
  - apply concat_eqv; [|reflexivity].
    apply concat_eqv; [|reflexivity].
    apply (concat_pass_l A).
  - apply concat_assoc.
Qed.

(** One call of [use] with the three of them gives the same chain. *)
Lemma handler_use3 A B C :
  Composer.handler (Composer.use (Composer.new []) [Fn A; Fn B; Fn C]).1
  ≈ₘ Composer.handler (chain3 A B C).
Proof.
  intros ctx. etrans; [|symmetry; apply handler_chain3].
  etrans; [apply (concat_pass_l (concat (concat A B) C))|].
  apply concat_assoc.
Qed.

Lemma with_leaf_try {A} (m : Async A) :
  with_leaf (try_ m) = ((with_leaf m).1, Fulfilled (with_leaf m).2).
Proof.
  induction m as [a|v|l k IH|k IH]; simpl; auto.
  rewrite IH. by destruct (with_leaf k).
Qed.

Lemma with_leaf_silent {A} (m : Async A) : silent m → (with_leaf m).1 = [].
Proof. induction m; simpl; intros; try done; auto. Qed.

Lemma silent_refuse {A} (m : Async A) : silent m → silent (refuse m).
Proof. induction m; simpl; intros; try done; auto. Qed.

Lemma trace_then {A B} (t : Task A) (f : A → Task B) :
  (∀ a, (f a).1 = []) → (then_ t f).1 = t.1.
Proof.
  intros Hf. destruct t as [ls [a|v]]; simpl; [|done].
  specialize (Hf a). destruct (f a) as [ls' r]; simpl in *.
  by rewrite Hf, app_nil_r.
Qed.

(** The effects of a chain whose first unit has none of its own are those
    of the rest of the chain, if any. *)
Lemma trace_concat_silent first andThen ctx :
  silent (first ctx) →
  (with_leaf (concat first andThen ctx)).1 = []
  ∨ (with_leaf (concat first andThen ctx)).1 = (with_leaf (andThen ctx)).1.
Proof.
  intros Hs. unfold concat.
  destruct (first ctx) as [a|v|l k|k]; simpl in Hs; try done.
  - by left.
  - by left.
  - right.
    rewrite with_leaf_bind, trace_then by done.
    rewrite (with_leaf_eqv _ _ (call_concat_next_first k andThen ctx)).
    rewrite with_leaf_bind, trace_then, with_leaf_try; [done|].
    intros r. rewrite with_leaf_bind, trace_then by done.
    apply with_leaf_silent, silent_refuse, Hs.
Qed.

Lemma trace_concat_started l first andThen ctx :
  silent (first ctx) →
  (with_leaf (concat (started l first) andThen ctx)).1 = [l]
  ∨ (with_leaf (concat (started l first) andThen ctx)).1
    = l :: (with_leaf (andThen ctx)).1.
Proof.
  intros Hs.
  assert ((with_leaf (concat (started l first) andThen ctx)).1
          = l :: (with_leaf (concat first andThen ctx)).1) as ->.
  { unfold concat, started. simpl.
    by destruct (with_leaf _). }
  destruct (trace_concat_silent first andThen ctx Hs) as [-> | ->]; auto.
Qed.

(** C9.  Three middleware registered with [use] run in the order of
    registration, each as the continuation of the one before: [A] runs
    with [B] followed by [C] as its continuation.  A unit that does not
    invoke its continuation cuts off every later one: without an
    invocation by [A] the dispatch is [A] alone, and without an invocation
    by [B] it is [A] followed by [B], whatever [C] is.  When units report
    their start and do nothing else observable, the reports of a dispatch
    are [a], then [b], then [c], cut after any of them.  When [A] awaits
    its continuation between the effects [a1] and [a2] and [B] returns
    after the effects [bs] without invoking its own, [handle] completes
    with these effects and without error. *)
Theorem use_order A B C ctx :
  Composer.handler (chain3 A B C) ctx ≈ concat A (concat B C) ctx
  ∧ (no_next (A ctx) = true → Composer.handler (chain3 A B C) ctx ≈ A ctx)
  ∧ (no_next (B ctx) = true →
     Composer.handler (chain3 A B C) ctx ≈ concat A B ctx)
  ∧ (∀ a b c : label,
       silent (A ctx) → silent (B ctx) → silent (C ctx) →
       let trace :=
         (Composer.handle (chain3 (started a A) (started b B) (started c C))
            ctx).1 in
       trace = [a] ∨ trace = [a; b] ∨ trace = [a; b; c])
  ∧ (∀ a1 a2 bs : list label,
       A ctx = emits a1 (await_next ;; emits a2 (Ret ())) →
       B ctx = emits bs (Ret ()) →
       Composer.handle (chain3 A B C) ctx
       = ((a1 ++ bs ++ a2)%list, Fulfilled ())).
Proof.
  assert (∀ A B C, no_next (B ctx) = true →
    Composer.handler (chain3 A B C) ctx ≈ concat A B ctx) as Hcut.
  { intros A' B' C' HB. etrans; [apply handler_chain3|].
    apply concat_eqv; [reflexivity|]. by apply concat_no_next. }
  split_and!.
  - apply handler_chain3.
  - intros HA. etrans; [apply handler_chain3|]. by apply concat_no_next.
  - apply Hcut.
  - intros a b c Ha Hb Hc trace. unfold trace, Composer.handle, run.
    change (Composer.middleware ?this () ctx) with (Composer.handler this ctx).
    rewrite (with_leaf_eqv _ _ (handler_chain3 _ _ _ ctx)).
    destruct (trace_concat_started a A
                (concat (started b B) (started c C)) ctx Ha) as [-> | ->];
      [by left|].
    destruct (trace_concat_started b B (started c C) ctx Hb) as [-> | ->];
      [by right; left|].
    right; right. unfold started. simpl.
    pose proof (with_leaf_silent _ Hc) as Hnil.
    destruct (with_leaf (C ctx)) as [ls r]; simpl in *. by rewrite Hnil.
  - intros a1 a2 bs HA HB. unfold Composer.handle, run.
    change (Composer.middleware ?this () ctx) with (Composer.handler this ctx).
    assert (no_next (B ctx) = true) as Hn.
    { rewrite HB. clear. induction bs; simpl; auto. }
    rewrite (with_leaf_eqv _ _ (Hcut A B C Hn)).
    erewrite with_leaf_eqv; last first.
    { apply (concat_call_next A B ctx a1
               (λ o, (await o ;; emits a2 (Ret ()))%async)).
      by rewrite HA. }
    rewrite HB, try_emits, bind_emits. simpl.
    rewrite refuse_emits, !with_leaf_emits. simpl.
    by rewrite !app_nil_r.
Qed.

Lemma use_order_witness :
  (let trace :=
     (Composer.handle
        (chain3 (started "A" pass) (started "B" (λ _, Ret ()))
           (started "C" pass)) push_ctx).1 in
   trace = ["A"] ∨ trace = ["A"; "B"] ∨ trace = ["A"; "B"; "C"])
  ∧ Composer.handle
      (chain3 (λ _, Emit "A" (await_next ;; Emit "A'" (Ret ())))
         (λ _, Emit "B" (Ret ())) (say "C")) push_ctx
    = (["A"; "B"; "A'"], Fulfilled ()).
Proof.
  split.
  - pose proof (use_order pass (λ _, Ret ()) pass push_ctx)
      as (_ & _ & _ & Htrace & _).
    apply (Htrace "A" "B" "C"); simpl; try exact I; by intros [].
  - pose proof (use_order (λ _, Emit "A" (await_next ;; Emit "A'" (Ret ())))
                  (λ _, Emit "B" (Ret ())) (say "C") push_ctx)
      as (_ & _ & _ & _ & Hend).
    exact (Hend ["A"] ["A'"] ["B"] eq_refl eq_refl).
Defined.

(** * Further properties of the engine *)

(** ** Chains *)

(** X1.  [concat] is associative: grouping a sequence of three units from
    the left or from the right gives the same middleware, with the same
    guards on the continuations. *)
Theorem concat_associative A B C ctx :
  concat (concat A B) C ctx ≈ concat A (concat B C) ctx.
Proof. apply concat_assoc. Qed.

(** X2.  [pass] is a left identity of [concat] and not a right one: a unit
    keeps its behaviour behind [pass], but in front of [pass] its
    continuation becomes guarded, so that a second invocation which the
    terminal continuation accepts is rejected. *)
Theorem pass_left_identity_only :
  (∀ m ctx, concat pass m ctx ≈ m ctx)
  ∧ run (concat second_call_probe pass) push_ctx
    = (["second next() rejected"], Fulfilled ())
  ∧ run second_call_probe push_ctx
    = (["second next() fulfilled"], Fulfilled ()).
Proof.
  split_and!; [|reflexivity..].
  intros m ctx. apply concat_pass_l.
Qed.

(** X3.  The constructor folds its arguments into one chain: without
    arguments the handler is [pass]; otherwise it is the first unit with
    the chain of the later ones as its continuation, objects flattened. *)
Theorem composer_new_chain :
  Composer.handler (Composer.new []) = pass
  ∧ ∀ m ms ctx,
      Composer.handler (Composer.new (m :: ms)) ctx
      ≈ chain (flatten m) (flatten <$> ms) ctx.
Proof.
  split; [reflexivity|]. intros m ms ctx. apply handler_new_chain.
Qed.

Lemma handler_new_app xs ys ctx :
  xs ≠ [] → ys ≠ [] →
  Composer.handler (Composer.new (xs ++ ys)) ctx
  ≈ concat (Composer.handler (Composer.new xs))
      (Composer.handler (Composer.new ys)) ctx.
Proof.
  destruct xs as [|x xs]; [done|]. destruct ys as [|y ys]; [done|].
  intros _ _. unfold Composer.new; simpl.
  rewrite fmap_app, foldl_app. simpl.
  etrans; [apply foldl_concat_chain|].
  etrans; [apply chain_concat|].
  apply concat_eqv; [reflexivity|].
  symmetry. apply foldl_concat_chain.
Qed.

(** X4.  Two calls of [use] register what one call with all the middleware
    registers, provided the second call has at least one middleware. *)
Theorem use_twice this xs ys ctx :
  ys ≠ [] →
  Composer.handler (Composer.use (Composer.use this xs).1 ys).1 ctx
  ≈ Composer.handler (Composer.use this (xs ++ ys)).1 ctx.
Proof.
  intros Hys.
  etrans;
    [apply (concat_assoc (Composer.handler this)
              (Composer.handler (Composer.new xs))
              (Composer.handler (Composer.new ys)) ctx)|].
  apply (concat_eqv (Composer.handler this) (Composer.handler this)
           (concat (Composer.handler (Composer.new xs))
              (Composer.handler (Composer.new ys)))
           (Composer.handler (Composer.new (xs ++ ys))) ctx);
    [reflexivity|].
  destruct xs as [|x xs].
  - apply (concat_pass_l (Composer.handler (Composer.new ys))).
  - symmetry. by apply handler_new_app.
Qed.

Lemma use_twice_witness :
  Composer.handler
    (Composer.use (Composer.use (Composer.new []) [Fn (say "A")]).1
       [Fn (say "B"); Fn (say "C")]).1 push_ctx
  ≈ Composer.handler
      (Composer.use (Composer.new []) [Fn (say "A"); Fn (say "B"); Fn (say "C")]).1
      push_ctx.
Proof.
  apply (use_twice (Composer.new []) [Fn (say "A")]
           [Fn (say "B"); Fn (say "C")] push_ctx).
  discriminate.
Defined.

(** ** Error boundaries, seen from [run] *)

(** Under [cont], an activation has the effects and the outcome it has
    under the terminal continuation. *)
Lemma call_cont_leaf {A} (m : Async A) s :
  with_leaf (call m Composer.cont s)
  = ((with_leaf m).1,
     match (with_leaf m).2 with
     | Fulfilled a => Fulfilled (a, s || negb (no_next m))
     | Rejected v => Rejected v
     end).
Proof.
  revert s; induction m as [a|v|l k IH|k IH]; intros s; simpl.
  - by rewrite orb_false_r.
  - done.
  - rewrite IH. by destruct (with_leaf k).
  - rewrite IH. destruct (with_leaf (k (Fulfilled ()))) as [ls [a|v]]; simpl;
      [|done].
    by rewrite orb_true_r.
Qed.

Lemma errorBoundary_run errorHandler bound c :
  Composer.errorBoundary_fn errorHandler bound c
  ≈ emits (run bound c).1
      match (run bound c).2 with
      | Fulfilled _ => after (bound c)
      | Rejected err =>
          match BotError_new err c with
          | Fulfilled botError =>
              emits (with_leaf (errorHandler botError)).1
                (after (errorHandler botError))
          | Rejected e => Throw e
          end
      end.
Proof.
  etrans; [apply errorBoundary_fn_spec|].
  unfold guarded, run, after. rewrite call_cont_leaf. simpl.
  destruct (with_leaf (bound c)) as [ls [[]|err]]; simpl.
  { destruct (no_next (bound c)); reflexivity. }
  destruct (BotError_new err c) as [botError|e]; [|reflexivity].
  rewrite call_cont_leaf. simpl.
  destruct (with_leaf (errorHandler botError)) as [ls' [[]|e]]; simpl;
    [|reflexivity].
  destruct (no_next (errorHandler botError)); reflexivity.
Qed.

(** X5.  When the guarded middleware, run on its own, throws a value
    after the effects [ls] and the construction of the [BotError] for that
    value succeeds, the [BotError] is named ["BotError"] and carries the
    value, the context and the generated message, and the boundary runs the
    handler on it.  The handler alone decides what follows, whatever the
    guarded middleware did to its continuation before it threw: the outer
    continuation is invoked when the handler returned and had invoked its
    own, nothing more happens when it returned without, and a value it
    throws leaves the boundary. *)
Theorem errorBoundary_hands_over errorHandler bound c ls err botError :
  run bound c = (ls, Rejected err) →
  BotError_new err c = Fulfilled botError →
  error botError = err ∧ ctx botError = c ∧ name botError = "BotError"
  ∧ generateBotErrorMessage err = Fulfilled (message botError)
  ∧ Composer.errorBoundary_fn errorHandler bound c
    ≈ emits ls
        (emits (with_leaf (errorHandler botError)).1
           (after (errorHandler botError))).
Proof.
  intros Hrun Hnew. split_and!.
  - unfold BotError_new in Hnew.
    destruct (generateBotErrorMessage err); by simplify_eq.
  - unfold BotError_new in Hnew.
    destruct (generateBotErrorMessage err); by simplify_eq.
  - unfold BotError_new in Hnew.
    destruct (generateBotErrorMessage err); by simplify_eq.
  - unfold BotError_new in Hnew.
    destruct (generateBotErrorMessage err); by simplify_eq.
  - etrans; [apply errorBoundary_run|]. rewrite Hrun; simpl.
    by rewrite Hnew.
Qed.

Lemma errorBoundary_hands_over_witness :
  BotError_new (VString "nonerror") push_ctx
  = Fulfilled
      {| error := VString "nonerror"; ctx := push_ctx;
         message := "Non-error value of type string thrown in middleware: nonerror";
         name := "BotError" |}
  ∧ Composer.errorBoundary_fn (λ err, Emit (message err) await_next)
      (λ _, Emit "m" (await_next ;; Throw (VString "nonerror"))) push_ctx
    ≈ emits ["m"]
        (Emit "Non-error value of type string thrown in middleware: nonerror"
           await_next).
Proof.
  split; [reflexivity|].
  pose proof (errorBoundary_hands_over (λ err, Emit (message err) await_next)
                (λ _, Emit "m" (await_next ;; Throw (VString "nonerror")))
                push_ctx ["m"] (VString "nonerror")
                {| error := VString "nonerror"; ctx := push_ctx;
                   message := "Non-error value of type string thrown in middleware: nonerror";
                   name := "BotError" |}
                eq_refl eq_refl) as (_ & _ & _ & _ & H).
  exact H.
Defined.

(** X6.  A boundary invokes the outer continuation at most once, as the
    last thing it does: whatever the guarded middleware and the handler
    are, and however often they invoke their continuations, its activation
    is a sequence of effects followed by a return, by one awaited
    invocation of the outer continuation, or by a throw. *)
Theorem errorBoundary_next_last errorHandler bound c :
  ∃ ls fin,
    Composer.errorBoundary_fn errorHandler bound c ≈ emits ls fin
    ∧ (fin = Ret () ∨ fin = await_next ∨ ∃ v, fin = Throw v).
Proof.
  assert (∀ A (m : Async A),
    after m = Ret () ∨ after m = await_next ∨ ∃ v, after m = Throw v) as Hafter.
  { intros A m. unfold after.
    destruct (with_leaf m).2; [destruct (no_next m)|]; eauto. }
  pose proof (errorBoundary_run errorHandler bound c) as Hrun.
  destruct (run bound c) as [ls [[]|err]]; simpl in Hrun.
  { exists ls, (after (bound c)). split; [done|apply Hafter]. }
  destruct (BotError_new err c) as [botError|e].
  - exists (ls ++ (with_leaf (errorHandler botError)).1)%list,
      (after (errorHandler botError)).
    split; [by rewrite emits_app|apply Hafter].
  - exists ls, (Throw e). split; [done|eauto].
Qed.

(** X7.  Middleware registered after a boundary is not part of the guarded
    activation.  When the guarded middleware, run on its own, returns after
    the effects [ls], the later middleware [D] starts after all of these
    effects, and only if the guarded middleware invoked its continuation;
    it runs outside the boundary, so that what it throws is not handed to
    the handler. *)
Theorem middleware_after_boundary this errorHandler mws D c ls :
  run (Composer.handler (Composer.new mws)) c = (ls, Fulfilled ()) →
  Composer.handler
    (Composer.use (Composer.errorBoundary this errorHandler mws).1 [Fn D]).1 c
  ≈ concat (Composer.handler this)
      (λ _, emits ls
              (if no_next (Composer.handler (Composer.new mws) c)
               then Ret () else D c)) c.
Proof.
  intros Hrun.
  set (bound := flatten (Obj (Composer.obj (Composer.new mws)))).
  assert (Composer.errorBoundary_fn errorHandler bound c
          ≈ emits ls
              (if no_next (Composer.handler (Composer.new mws) c)
               then Ret () else await_next)) as Hnode.
  { etrans; [apply errorBoundary_run|].
    change (run bound c) with (run (Composer.handler (Composer.new mws)) c).
    rewrite Hrun. cbn [fst snd]. unfold after.
    change (bound c) with (Composer.handler (Composer.new mws) c).
    unfold run in Hrun. rewrite Hrun. reflexivity. }
  etrans;
    [apply (concat_assoc (Composer.handler this)
              (Composer.errorBoundary_fn errorHandler bound) D c)|].
  apply concat_eqv; [reflexivity|].
  destruct (no_next (Composer.handler (Composer.new mws) c)).
  - etrans;
      [apply (concat_eqv _ (λ _, emits ls (Ret ())) D D c);
       [exact Hnode|reflexivity]|].
    apply (concat_no_next (λ _, emits ls (Ret ())) D c).
    clear. induction ls; simpl; auto.
  - etrans;
      [apply (concat_eqv _ (λ _, emits ls await_next) D D c);
       [exact Hnode|reflexivity]|].
    etrans; [apply (concat_call_next (λ _, emits ls await_next) D c ls await);
             reflexivity|].
    apply emits_eqv.
    etrans; [|apply try_await]. apply bind_eqv_r. by intros [[]|v].
Qed.

Lemma middleware_after_boundary_witness :
  Composer.handler
    (Composer.use
       (Composer.errorBoundary (Composer.new []) log_message
          [Fn (λ _, Emit "in" (await_next ;; Emit "out" (Ret ())))]).1
       [Fn (λ _, Emit "later" (Throw VNull))]).1 push_ctx
  ≈ concat pass (λ _, Emit "in" (Emit "out" (Emit "later" (Throw VNull))))
      push_ctx.
Proof.
  apply (middleware_after_boundary (Composer.new []) log_message
           [Fn (λ _, Emit "in" (await_next ;; Emit "out" (Ret ())))]
           (λ _, Emit "later" (Throw VNull)) push_ctx ["in"; "out"]).
  reflexivity.
Defined.

(** X8.  Boundaries nest.  When the guarded middleware of the inner
    boundary throws [err] and the inner handler, run on the wrapped error,
    throws [w], the value [w] leaves the inner boundary and the outer
    boundary hands it, wrapped in a [BotError] of its own, to the outer
    handler, after the effects of the guarded middleware and of the inner
    handler. *)
Theorem nested_boundary outer inner bound c ls err botError ls' w botError' :
  run bound c = (ls, Rejected err) →
  BotError_new err c = Fulfilled botError →
  with_leaf (inner botError) = (ls', Rejected w) →
  BotError_new w c = Fulfilled botError' →
  error botError' = w
  ∧ Composer.errorBoundary_fn outer (Composer.errorBoundary_fn inner bound) c
    ≈ emits ls
        (emits ls'
           (emits (with_leaf (outer botError')).1 (after (outer botError')))).
Proof.
  intros Hrun Hnew Hinner Hnew'.
  assert (Composer.errorBoundary_fn inner bound c ≈ emits ls (emits ls' (Throw w)))
    as Hin.
  { etrans; [apply errorBoundary_run|]. rewrite Hrun; simpl. rewrite Hnew.
    unfold after. by rewrite Hinner. }
  split.
  { unfold BotError_new in Hnew'.
    destruct (generateBotErrorMessage w); by simplify_eq. }
  etrans; [apply errorBoundary_run|].
  unfold run. rewrite (with_leaf_eqv _ _ Hin), !with_leaf_emits. simpl.
  rewrite !app_nil_r, Hnew', emits_app. reflexivity.
Qed.

Lemma nested_boundary_witness :
  Composer.errorBoundary_fn log_message
    (Composer.errorBoundary_fn rethrow (λ _, Throw (VString "nonerror")))
    push_ctx
  ≈ Emit "BotError in middleware: Non-error value of type string thrown in middleware: nonerror"
      (Ret ()).
Proof.
  refine (proj2 (nested_boundary log_message rethrow
                   (λ _, Throw (VString "nonerror")) push_ctx []
                   (VString "nonerror") _ [] _ _ eq_refl eq_refl eq_refl eq_refl)).
Defined.

(** ** Messages *)

(** X9.  Among the thrown values that are not instances of [Error], the
    generation of the message fails on the symbols and on nothing else, and
    so does the construction of a [BotError]. *)
Theorem message_fails_on_symbols_only v c :
  (∀ name message, v ≠ VError name message) →
  ((∃ e, generateBotErrorMessage v = Rejected e) ↔ ∃ description, v = VSymbol description)
  ∧ ((∃ e, BotError_new v c = Rejected e) ↔ ∃ description, v = VSymbol description).
Proof.
  intros _. unfold BotError_new.
  destruct v; simpl; split; split;
    try (intros [? [=]]); try (intros [? [=]]); eauto.
Qed.

Lemma message_fails_on_symbols_only_witness :
  (∃ e, BotError_new (VSymbol "tag") push_ctx = Rejected e)
  ∧ ¬ ∃ e, BotError_new (VString "nonerror") push_ctx = Rejected e.
Proof.
  split.
  - apply (message_fails_on_symbols_only (VSymbol "tag") push_ctx);
      [discriminate|]. by exists "tag".
  - intros H.
    apply (message_fails_on_symbols_only (VString "nonerror") push_ctx) in H;
      [|discriminate].
    by destruct H.
Defined.

Lemma length_append s1 s2 :
  String.length (s1 +:+ s2) = (String.length s1 + String.length s2)%nat.
Proof. induction s1; simpl; auto. Qed.

Lemma substring_all n s :
  (String.length s ≤ n)%nat → String.substring 0 n s = s.
Proof.
  revert n; induction s as [|a s IH]; intros [|n]; simpl; intros H;
    try done; try lia.
  by rewrite IH by lia.
Qed.

(** X10.  The message of a thrown string shows its first 50 characters and
    no more: it has at most 103 characters, it shows a string of at most 50
    characters in full, and two strings with the same first 50 characters
    have the same message. *)
Theorem message_of_string_bounded s :
  ∃ msg,
    generateBotErrorMessage (VString s) = Fulfilled msg
    ∧ (String.length msg ≤ 103)%nat
    ∧ ((String.length s ≤ 50)%nat →
       msg = "Non-error value of type string thrown in middleware: " +:+ s)
    ∧ ∀ s', String.substring 0 50 s' = String.substring 0 50 s →
            generateBotErrorMessage (VString s') = Fulfilled msg.
Proof.
  eexists; split_and!; [apply message_of_string| | |].
  - rewrite length_append. pose proof (length_substring 0 50 s). simpl. lia.
  - intros Hs. by rewrite substring_all.
  - intros s' Hs'. by rewrite message_of_string, Hs'.
Qed.

(** ** Callbacks that fail *)

Lemma lazy_fn_rejects factory c ls v :
  factory c = (ls, Rejected v) →
  Composer.lazy_fn factory c ≈ emits ls (Throw v).
Proof.
  intros Hf. unfold Composer.lazy_fn, await_task. rewrite Hf; simpl.
  rewrite bind_emits. reflexivity.
Qed.

(** X11.  The factory of [lazy] runs on every dispatch that reaches the
    node, before anything it selects.  When it throws, the node throws the
    same value after the effects of the factory and runs no middleware;
    when it returns an empty array, the node passes through. *)
Theorem lazy_factory_edges this factory c ls :
  (∀ v, factory c = (ls, Rejected v) →
        Composer.handler (Composer.lazy this factory).1 c
        ≈ concat (Composer.handler this) (λ _, emits ls (Throw v)) c)
  ∧ (factory c = (ls, Fulfilled (Many [])) →
     Composer.handler (Composer.lazy this factory).1 c
     ≈ concat (Composer.handler this) (λ _, emits ls await_next) c).
Proof.
  split.
  - intros v Hf. rewrite handler_lazy.
    apply concat_eqv; [reflexivity|]. by apply lazy_fn_rejects.
  - intros Hf. rewrite handler_lazy.
    apply concat_eqv; [reflexivity|].
    unfold Composer.lazy_fn. by rewrite Hf, bind_await_task.
Qed.

Lemma lazy_factory_edges_witness :
  Composer.handler
    (Composer.lazy (Composer.new []) (λ _, (["f"], Rejected VNull))).1 push_ctx
  ≈ concat pass (λ _, Emit "f" (Throw VNull)) push_ctx
  ∧ Composer.handler
      (Composer.lazy (Composer.new []) (λ _, (["f"], Fulfilled (Many [])))).1
      push_ctx
    ≈ concat pass (λ _, Emit "f" await_next) push_ctx.
Proof.
  split.
  - exact (proj1 (lazy_factory_edges (Composer.new [])
                    (λ _, (["f"], Rejected VNull)) push_ctx ["f"])
             VNull eq_refl).
  - exact (proj2 (lazy_factory_edges (Composer.new [])
                    (λ _, (["f"], Fulfilled (Many []))) push_ctx ["f"])
             eq_refl).
Defined.

(** X12.  When the predicate throws, after the effects [ls], the nodes of
    [branch], [filter] and [drop] throw the same value: neither set of
    [branch] runs, the child of [filter] or [drop] does not run, and the
    node does not pass through. *)
Theorem predicate_rejects this predicate c ls v :
  predicate c = (ls, Rejected v) →
  (∀ T F,
     Composer.handler (Composer.branch this predicate T F).1 c
     ≈ concat (Composer.handler this) (λ _, emits ls (Throw v)) c)
  ∧ ∀ mws,
      Composer.handler (Composer.filter this predicate mws).1 c
      ≈ concat (Composer.handler this) (λ _, emits ls (Throw v)) c
      ∧ Composer.handler (Composer.drop this predicate mws).1 c
        ≈ concat (Composer.handler this) (λ _, emits ls (Throw v)) c.
Proof.
  intros Hp.
  assert (∀ A (f : bool → Async A),
    (b <- await_task (predicate c) ;; f b) = emits ls (Throw v)) as Hthrow.
  { intros A f. unfold await_task. rewrite Hp; simpl. by rewrite bind_emits. }
  split; [|split].
  - intros T F. etrans; [apply handler_branch|].
    apply concat_eqv; [reflexivity|]. by rewrite Hthrow.
  - etrans; [apply handler_filter|].
    apply concat_eqv; [reflexivity|]. by rewrite Hthrow.
  - etrans; [apply handler_filter|].
    apply concat_eqv; [reflexivity|].
    rewrite Hp. simpl then_. unfold await_task; simpl.
    by rewrite bind_emits.
Qed.

Lemma predicate_rejects_witness :
  Composer.handler
    (Composer.filter (Composer.new []) (λ _, (["p"], Rejected VNull))
       [Fn (say "child")]).1 push_ctx
  ≈ concat pass (λ _, Emit "p" (Throw VNull)) push_ctx.
Proof.
  exact (proj1 (proj2 (predicate_rejects (Composer.new [])
                         (λ _, (["p"], Rejected VNull)) push_ctx ["p"] VNull
                         eq_refl) [Fn (say "child")])).
Defined.

(** X13.  When the router throws, after the effects [ls], the node of
    [route] throws the same value: no handler runs, and the fallback does
    not run either. *)
Theorem router_rejects this router routeHandlers fallback c ls v :
  router c = (ls, Rejected v) →
  Composer.handler (Composer.route this router routeHandlers fallback).1 c
  ≈ concat (Composer.handler this) (λ _, emits ls (Throw v)) c.
Proof.
  intros Hr. etrans; [apply handler_route|].
  apply concat_eqv; [reflexivity|].
  unfold await_task. rewrite Hr; simpl. by rewrite bind_emits.
Qed.

Lemma router_rejects_witness :
  Composer.handler
    (Composer.route (Composer.new []) (λ _, (["r"], Rejected VNull))
       handlers_a (Some (Fn (say "fallback")))).1
    push_ctx
  ≈ concat pass (λ _, Emit "r" (Throw VNull)) push_ctx.
Proof.
  apply (router_rejects (Composer.new []) (λ _, (["r"], Rejected VNull))
           handlers_a (Some (Fn (say "fallback")))
           push_ctx ["r"] VNull).
  reflexivity.
Defined.

(** ** Queries and predicates *)

(** X14.  A query is read up to its second part: what follows a second dot
    is ignored, so that ["issues.opened.x"] matches what ["issues.opened"]
    matches. *)
Theorem query_extra_parts_ignored c ev action rest :
  contains "." ev = false → contains "." action = false →
  Composer.matches c (ev +:+ "." +:+ action +:+ "." +:+ rest)
  = Composer.matches c (ev +:+ "." +:+ action).
Proof.
  intros Hev Hact. unfold Composer.matches.
  change ("." +:+ action +:+ "." +:+ rest)
    with (String "." (action +:+ String "." rest)).
  change ("." +:+ action) with (String "." action).
  rewrite !(split_app _ _ _ Hev), (split_app _ _ _ Hact),
    (split_no_sep _ _ Hact).
  reflexivity.
Qed.

Lemma query_extra_parts_ignored_witness :
  Composer.matches issues_opened_ctx "issues.opened.x"
  = Composer.matches issues_opened_ctx "issues.opened".
Proof.
  apply (query_extra_parts_ignored issues_opened_ctx "issues" "opened" "x");
    reflexivity.
Defined.

Lemma then_negb_negb (t : Task bool) :
  then_ (then_ t (λ b, resolve (negb b))) (λ b, resolve (negb b)) = t.
Proof.
  destruct t as [ls [b|v]]; simpl; [|done].
  by rewrite !app_nil_r, negb_involutive.
Qed.

(** X15.  [drop] on the negation of a predicate is [filter] on the
    predicate, whether the predicate returns or throws. *)
Theorem drop_negation_is_filter this predicate mws c :
  Composer.handler
    (Composer.drop this (λ ctx, then_ (predicate ctx) (λ b, resolve (negb b)))
       mws).1 c
  ≈ Composer.handler (Composer.filter this predicate mws).1 c.
Proof.
  etrans; [apply handler_filter|]. symmetry.
  etrans; [apply handler_filter|].
  apply concat_eqv; [reflexivity|].
  rewrite then_negb_negb. reflexivity.
Qed.

(** ** Dispatch from the root *)

Lemma handler_new_cons m ms c :
  ms ≠ [] →
  Composer.handler (Composer.new (m :: ms)) c
  ≈ concat (flatten m) (Composer.handler (Composer.new ms)) c.
Proof.
  destruct ms as [|m' ms]; [done|]. intros _.
  etrans; [apply handler_new_chain|]. simpl.
  apply concat_eqv; [reflexivity|]. symmetry. apply handler_new_chain.
Qed.

Lemma concat_say l andThen c : concat (say l) andThen c ≈ Emit l (andThen c).
Proof.
  etrans; [apply (concat_call_next (say l) andThen c [l] await); reflexivity|].
  simpl. apply eqv_Emit.
  etrans; [|apply try_await]. apply bind_eqv_r. by intros [[]|v].
Qed.

(** X16.  Middleware that log and await their continuation are transparent
    to [handle]: behind any number of them, the dispatch has their reports
    in the order of registration, then the effects of the last middleware,
    and it settles as the last middleware does, a value thrown there
    reaching the caller of [handle]. *)
Theorem handle_behind_loggers ls m c :
  Composer.handle (Composer.new ((Fn ∘ say <$> ls) ++ [Fn m])) c
  = ((ls ++ (run m c).1)%list, (run m c).2).
Proof.
  unfold Composer.handle, run.
  change (Composer.middleware ?this () c) with (Composer.handler this c).
  induction ls as [|l ls IH].
  - simpl. by destruct (with_leaf (m c)).
  - change ((Fn ∘ say <$> l :: ls) ++ [Fn m])%list
      with (Fn (say l) :: ((Fn ∘ say <$> ls) ++ [Fn m]))%list.
    rewrite (with_leaf_eqv _
               (Emit l (Composer.handler
                          (Composer.new ((Fn ∘ say <$> ls) ++ [Fn m])) c))).
    + cbn [with_leaf]. rewrite IH. reflexivity.
    + etrans; [apply handler_new_cons; by destruct ls|].
      apply concat_say.
Qed.

(** * Writes to the context: [filter] and [drop] on one dispatch *)

Module MutableFacts.
Import Mutable.

Infix "≃" := eqv (at level 70, no associativity).

Create HintDb masync discriminated.
#[export] Hint Constructors eqv : masync.

Lemma m_eqv_refl {A} (m : Async A) : m ≃ m.
Proof. induction m; auto with masync. Qed.

#[export] Hint Resolve m_eqv_refl : masync.

Lemma m_eqv_trans {A} (m1 m2 m3 : Async A) : m1 ≃ m2 → m2 ≃ m3 → m1 ≃ m3.
Proof.
  intros H; revert m3.
  induction H; intros m3 H3; auto; inversion H3; subst; auto with masync.
Qed.

Lemma m_with_leaf_eqv {A} (m m' : Async A) e :
  m ≃ m' → with_leaf m e = with_leaf m' e.
Proof.
  intros H; revert e. induction H; intros e0; simpl; auto.
  by rewrite IHeqv.
Qed.

Lemma m_bind_eqv {A B} (m m' : Async A) (f f' : A → Async B) :
  m ≃ m' → (∀ a, f a ≃ f' a) → bind m f ≃ bind m' f'.
Proof. intros H Hf; induction H; simpl; auto with masync. Qed.

Lemma m_try_eqv {A} (m m' : Async A) : m ≃ m' → try_ m ≃ try_ m'.
Proof. induction 1; simpl; auto with masync. Qed.

Lemma m_call_eqv {S A} (m m' : Async A) (n n' : S → Async (settled unit * S)) s :
  m ≃ m' → (∀ s, n s ≃ n' s) → call m n s ≃ call m' n' s.
Proof.
  intros H Hn; revert s.
  induction H; intros s; simpl; auto with masync.
  apply m_bind_eqv; [done|]. intros [o s']; auto.
Qed.

Lemma m_concat_eqv first first' andThen andThen' ctx :
  first ctx ≃ first' ctx → andThen ctx ≃ andThen' ctx →
  concat first andThen ctx ≃ concat first' andThen' ctx.
Proof.
  intros H1 H2. unfold concat.
  apply m_bind_eqv; [|auto with masync].
  apply m_call_eqv; [done|]. intros [|]; simpl; [auto with masync|].
  apply m_bind_eqv; [by apply m_try_eqv | auto with masync].
Qed.

Lemma m_try_await (X : Async unit) (n : bool → Async (settled unit * bool)) :
  bind
    (bind (bind (try_ X) (λ r, Ret (r, true)))
       (λ x, call (await x.1) n x.2))
    (λ _, Ret ())
  ≃ X.
Proof.
  induction X as [[]|v|l k IH|k IH|k IH|e k IH]; simpl; auto with masync.
Qed.

(** [pass] is a left identity of [concat]. *)
Lemma m_concat_pass_l m ctx : concat pass m ctx ≃ m ctx.
Proof. apply m_try_await. Qed.

Lemma m_bind_emits {A B} ls (m : Async A) (f : A → Async B) :
  bind (emits ls m) f = emits ls (bind m f).
Proof. induction ls; simpl; congruence. Qed.

Lemma m_call_emits {S A} ls (m : Async A) (n : S → Async (settled unit * S)) s :
  call (emits ls m) n s = emits ls (call m n s).
Proof. induction ls; simpl; congruence. Qed.

Lemma m_try_emits {A} ls (m : Async A) : try_ (emits ls m) = emits ls (try_ m).
Proof. induction ls; simpl; congruence. Qed.

Lemma m_with_leaf_emits {A} ls (m : Async A) e :
  with_leaf (emits ls m) e
  = (((ls ++ (with_leaf m e).1.1)%list, (with_leaf m e).1.2), (with_leaf m e).2).
Proof.
  induction ls as [|l ls IH]; simpl.
  - by destruct (with_leaf m e) as [[??]?].
  - by rewrite IH.
Qed.

Lemma m_with_leaf_bind {A B} (m : Async A) (f : A → Async B) e :
  with_leaf (bind m f) e
  = match with_leaf m e with
    | ((ls, Fulfilled a), e') =>
        (((ls ++ (with_leaf (f a) e').1.1)%list, (with_leaf (f a) e').1.2),
         (with_leaf (f a) e').2)
    | ((ls, Rejected v), e') => ((ls, Rejected v), e')
    end.
Proof.
  revert e; induction m as [a|v|l k IH|k IH|k IH|e' k IH]; intros e; simpl;
    auto.
  - by destruct (with_leaf (f a) e) as [[??]?].
  - rewrite IH. by destruct (with_leaf k e) as [[ls [a|v]] e'].
Qed.

Lemma m_with_leaf_try {A} (m : Async A) e :
  with_leaf (try_ m) e
  = (((with_leaf m e).1.1, Fulfilled (with_leaf m e).1.2), (with_leaf m e).2).
Proof.
  revert e; induction m as [a|v|l k IH|k IH|k IH|e' k IH]; intros e; simpl;
    auto.
  rewrite IH. by destruct (with_leaf k e) as [[??]?].
Qed.

(** The nodes that [filter] and [drop] register. *)
Lemma m_handler_filter this predicate ms ctx :
  Composer.handler (Composer.filter this predicate ms).1 ctx
  = concat (Composer.handler this)
      (Composer.lazy_fn (λ ctx e,
         then_ (predicate ctx e) (λ b,
           resolve (if b then One (Obj (Composer.obj (Composer.new ms)))
                    else One (Fn pass))))) ctx.
Proof. reflexivity. Qed.

(** What a node does from the payload [e], on which the predicate settles
    on [b]: the effects of the predicate, then the child or [pass]. *)
Lemma m_node_at {S A} predicate ms ctx e ls (b : bool)
    (n : S → Async (settled unit * S)) s (f : unit * S → Async A) :
  predicate ctx e = (ls, Fulfilled b) →
  with_leaf
    (bind
       (call
          (Composer.lazy_fn (λ ctx e,
             then_ (predicate ctx e) (λ b,
               resolve (if b then One (Obj (Composer.obj (Composer.new ms)))
                        else One (Fn pass)))) ctx) n s) f) e
  = with_leaf
      (emits ls
         (bind
            (call (if b then Composer.handler (Composer.new ms) ctx
                   else pass ctx) n s) f)) e.
Proof.
  intros Hp. unfold Composer.lazy_fn. simpl. rewrite Hp. simpl.
  unfold await_task. simpl. rewrite app_nil_r.
  rewrite m_bind_emits, m_call_emits, m_bind_emits. simpl.
  by destruct b.
Qed.

Lemma m_run_node (predicate : Context → Payload → Task bool) ms ctx e ls (b : bool) :
  predicate ctx e = (ls, Fulfilled b) →
  Composer.handle (Composer.filter (Composer.new []) predicate ms).1 ctx e
  = if b
    then ((ls ++ (run (Composer.handler (Composer.new ms)) ctx e).1)%list,
          (run (Composer.handler (Composer.new ms)) ctx e).2)
    else (ls, Fulfilled ()).
Proof.
  intros Hp. unfold Composer.handle, run.
  change (Composer.middleware ?x () ctx) with (Composer.handler x ctx).
  rewrite m_handler_filter.
  rewrite (m_with_leaf_eqv _ _ _ (m_concat_pass_l _ ctx)).
  unfold Composer.lazy_fn. simpl. rewrite Hp. simpl.
  unfold await_task. simpl. rewrite app_nil_r, m_bind_emits, m_with_leaf_emits.
  destruct b; simpl; [done|]. by rewrite app_nil_r.
Qed.

Lemma m_negate (predicate : Context → Payload → Task bool) ctx e ls (b : bool) :
  predicate ctx e = (ls, Fulfilled b) →
  then_ (predicate ctx e) (λ b, resolve (negb b)) = (ls, Fulfilled (negb b)).
Proof. intros ->. simpl. by rewrite app_nil_r. Qed.

(** A body that writes nothing leaves the payload as it is, and so a
    continuation that settles in the same way on this payload can take the
    place of another. *)
Lemma m_call_read_only {A} (B : Async A) D D' ctx e ls s :
  read_only B →
  with_leaf (D ctx) e = ((ls, Fulfilled ()), e) →
  with_leaf (D' ctx) e = ((ls, Fulfilled ()), e) →
  with_leaf (call B (concat_next D ctx) s) e
  = with_leaf (call B (concat_next D' ctx) s) e.
Proof.
  intros HB HD HD'. revert s.
  induction B as [a|v|l k IH|k IH|k IH|e' k IH]; intros s; simpl in *;
    try done.
  - by rewrite IH.
  - destruct s; simpl.
    + by apply IH.
    + rewrite !m_with_leaf_bind, !m_with_leaf_try, HD, HD'. simpl.
      by rewrite IH.
  - by apply IH.
Qed.

(** A node from the payload [e], on which its predicate settles on [b]. *)
Lemma m_node_run (predicate : Context → Payload → Task bool) ms ctx e ls
    (b : bool) :
  predicate ctx e = (ls, Fulfilled b) →
  with_leaf
    (Composer.lazy_fn (λ ctx e,
       then_ (predicate ctx e) (λ b,
         resolve (if b then One (Obj (Composer.obj (Composer.new ms)))
                  else One (Fn pass)))) ctx) e
  = with_leaf
      (emits ls (if b then Composer.handler (Composer.new ms) ctx
                 else pass ctx)) e.
Proof.
  intros Hp. unfold Composer.lazy_fn. cbn [with_leaf]. rewrite Hp.
  cbn [then_ resolve]. unfold await_task. cbn [fst snd await].
  rewrite app_nil_r, m_bind_emits. cbn [bind].
  by destruct b.
Qed.

Lemma m_run_filter_then_drop (predicate : Context → Payload → Task bool)
    ms1 ms2 ctx e ls (b : bool) :
  predicate ctx e = (ls, Fulfilled b) →
  let child1 := Composer.handler (Composer.new ms1) in
  let child2 := Composer.handler (Composer.new ms2) in
  (b = false →
   Composer.handle (filter_then_drop predicate ms1 ms2) ctx e
   = ((ls ++ ls ++ (run child2 ctx e).1)%list, (run child2 ctx e).2))
  ∧ (b = true → read_only (child1 ctx) →
     Composer.handle (filter_then_drop predicate ms1 ms2) ctx e
     = ((ls ++ (run (concat child1 (λ _, emits ls await_next)) ctx e).1)%list,
        (run (concat child1 (λ _, emits ls await_next)) ctx e).2)).
Proof.
  intros Hp child1 child2.
  pose proof (m_negate predicate ctx e ls b Hp) as Hn.
  set (F := Composer.lazy_fn (λ ctx e,
         then_ (predicate ctx e) (λ b,
           resolve (if b then One (Obj (Composer.obj (Composer.new ms1)))
                    else One (Fn pass))))).
  set (D := Composer.lazy_fn (λ ctx e,
         then_ (then_ (predicate ctx e) (λ b, resolve (negb b))) (λ b,
           resolve (if b then One (Obj (Composer.obj (Composer.new ms2)))
                    else One (Fn pass))))).
  assert (with_leaf (D ctx) e
          = with_leaf (emits ls (if negb b then child2 ctx else pass ctx)) e)
    as HD.
  { apply (m_node_run (λ ctx e, then_ (predicate ctx e) (λ b, resolve (negb b)))
             ms2 ctx e ls (negb b) Hn). }
  assert (with_leaf (Composer.handler (filter_then_drop predicate ms1 ms2) ctx) e
          = with_leaf
              (emits ls
                 (bind
                    (call (if b then child1 ctx else pass ctx)
                       (concat_next D ctx) false) (λ _, Ret ()))) e) as Hh.
  { etrans.
    { apply m_with_leaf_eqv.
      apply (m_concat_eqv (concat pass F) F D D ctx);
        [apply m_concat_pass_l|apply m_eqv_refl]. }
    apply (m_node_at predicate ms1 ctx e ls b (concat_next D ctx) false
             (λ _, Ret ()) Hp). }
  unfold Composer.handle, run.
  change (Composer.middleware ?x () ctx) with (Composer.handler x ctx).
  rewrite Hh, m_with_leaf_emits. cbn [fst snd].
  split.
  - intros ->.
    change (bind (call (pass ctx) (concat_next D ctx) false) (λ _, Ret ()))
      with (concat pass D ctx).
    rewrite (m_with_leaf_eqv _ _ _ (m_concat_pass_l D ctx)), HD.
    cbn [negb]. rewrite m_with_leaf_emits. cbn [fst snd].
    by rewrite app_assoc, <- (app_assoc ls ls).
  - intros -> Hro. unfold concat.
    rewrite !m_with_leaf_bind.
    rewrite (m_call_read_only (child1 ctx) D (λ _, emits ls await_next)
               ctx e ls false Hro).
    + done.
    + rewrite HD. cbn [negb]. rewrite m_with_leaf_emits. simpl.
      by rewrite app_nil_r.
    + rewrite m_with_leaf_emits. simpl. by rewrite app_nil_r.
Qed.




End MutableFacts.
